(** * A one-shot promise/future pair (fut.cpp)

    Shallow embedding of the three class templates of [fut.cpp]:
    [SharedState<T>], [MyFuture<T>] and [MyPromise<T>].

    - A [SharedState<T>] is a record of its three data members.  Every
      member function holds [mutex_] for its whole body, so each call is one
      atomic transition on that record.  [cv_.wait(lock, pred)] returns only
      once [pred] holds: a call that reaches it while [ready_] is false has
      the outcome [Blocks] and changes nothing; the suspended caller is the
      same call made again after a writer has run.  [cv_.notify_one()]
      touches no data member.  Which suspended caller it resumes is tracked
      by the layer [Concurrent], on top of the sequential one.
    - [std::shared_ptr<SharedState<T>>] is an optional location in a heap of
      shared states; copies of the pointer alias the same record.  The heap
      never frees a record (a record nobody points at cannot be observed).
    - [MyPromise<T>] objects live in a store indexed by their address, since
      member functions update [*this] and the move operations update
      [other] and compare [this] with [&other].
    - [throw] is the outcome [Throws]; an exception object is either a
      [std::runtime_error] with its [what()] string or any other object the
      client threw. *)

From stdpp Require Import gmap strings.

Local Open Scope list_scope.

(** ** Exceptions and outcomes *)

Inductive exception (E : Type) : Type :=
| runtime_error (what : string)
| thrown (payload : E).
Arguments runtime_error {E} what.
Arguments thrown {E} payload.

(** [std::exception_ptr]: null, or a handle on an exception object. *)
Definition exception_ptr (E : Type) : Type := option (exception E).

Inductive outcome (E A : Type) : Type :=
| Returns (a : A)
| Throws (e : exception E)
| Blocks
| Undefined.
Arguments Returns {E A} a.
Arguments Throws {E A} e.
Arguments Blocks {E A}.
Arguments Undefined {E A}.

(** The [runtime_error]s the three classes throw, by their [what()]. *)
Section Errors.
Context {E : Type}.
Definition already_satisfied : exception E :=
  runtime_error "Promise already satisfied".
Definition internal_error : exception E :=
  runtime_error "Internal error: shared state ready but no value or exception".
Definition future_no_state : exception E :=
  runtime_error "Future has no associated state".
Definition promise_no_state : exception E :=
  runtime_error "Promise has no state".
Definition already_retrieved_or_no_state : exception E :=
  runtime_error "Future already retrieved or no state".
Definition broken_promise : exception E :=
  runtime_error "Broken promise".
End Errors.

(** ** SharedState<T> *)

Module SharedState.
Section Defs.
Context {T E : Type}.

Record t : Type := mk {
  value_ : option T;
  exception_ptr_ : exception_ptr E;
  ready_ : bool
}.

(** [SharedState() = default]: members take their default initialisers. *)
Definition init : t :=
  {| value_ := None; exception_ptr_ := None; ready_ := false |}.

Definition set_value (val : T) (s : t) : outcome E unit * t :=
  if ready_ s then
    (Throws (runtime_error "Promise already satisfied"), s)
  else
    (Returns tt,
     {| value_ := Some val; exception_ptr_ := exception_ptr_ s; ready_ := true |}).

Definition set_exception (p : exception_ptr E) (s : t) : outcome E unit * t :=
  if ready_ s then
    (Throws (runtime_error "Promise already satisfied"), s)
  else
    (Returns tt,
     {| value_ := value_ s; exception_ptr_ := p; ready_ := true |}).

Definition get_value (s : t) : outcome E T * t :=
  if ready_ s then
    match exception_ptr_ s with
    | Some e => (Throws e, s)
    | None =>
        match value_ s with
        | Some v => (Returns v, s)
        | None =>
            (Throws (runtime_error
               "Internal error: shared state ready but no value or exception"), s)
        end
    end
  else (Blocks, s).

Definition is_ready (s : t) : outcome E bool * t := (Returns (ready_ s), s).

Definition wait (s : t) : outcome E unit * t :=
  if ready_ s then (Returns tt, s) else (Blocks, s).

(** The calls a client can make on one shared state, and the state left by
    a sequence of them (whatever each call's outcome was). *)
Inductive op : Type :=
| SetValue (val : T)
| SetException (p : exception_ptr E)
| GetValue
| IsReady
| Wait.

Definition step (o : op) (s : t) : t :=
  match o with
  | SetValue val => (set_value val s).2
  | SetException p => (set_exception p s).2
  | GetValue => (get_value s).2
  | IsReady => (is_ready s).2
  | Wait => (wait s).2
  end.

Definition run (os : list op) (s : t) : t := foldl (flip step) s os.

(** The two writers, as one call. *)
Inductive writer : Type :=
| write_value (val : T)
| write_exception (p : exception_ptr E).

Definition write (w : writer) (s : t) : outcome E unit * t :=
  match w with
  | write_value val => set_value val s
  | write_exception p => set_exception p s
  end.

(** A client that never passes a null pointer to [set_exception]. *)
Definition null_free (os : list op) : Prop :=
  Forall (λ o, o ≠ SetException None) os.

(** Which of the two outcome members are populated. *)
Definition holds_value (s : t) : bool := bool_decide (is_Some (value_ s)).
Definition holds_failure (s : t) : bool := bool_decide (is_Some (exception_ptr_ s)).
Definition exactly_one_outcome (s : t) : bool := xorb (holds_value s) (holds_failure s).
End Defs.
Arguments t : clear implicits.
Arguments op : clear implicits.
Arguments writer : clear implicits.
End SharedState.

(** ** The object store and the monad of member functions *)

(** Locations of shared states (targets of [std::shared_ptr]) and addresses
    of promise objects. *)
Abbreviation loc := nat (only parsing).
Abbreviation addr := nat (only parsing).

(** The two data members of [MyPromise<T>]; [None] is the null pointer. *)
Record promise_obj : Type := mk_promise {
  prom_state : option loc;
  prom_future_retrieved : bool
}.

Section World.
Context {T E : Type}.

Record world : Type := mk_world {
  heap : gmap loc (SharedState.t T E);
  objs : gmap addr promise_obj
}.

Definition init_world : world := {| heap := ∅; objs := ∅ |}.

(** A member function: runs in a world, ends with an outcome and a world. *)
Definition M (A : Type) : Type := world → outcome E A * world.

Definition ret {A} (a : A) : M A := λ w, (Returns a, w).

Definition bind {A B} (m : M A) (k : A → M B) : M B :=
  λ w, match m w with
       | (Returns a, w') => k a w'
       | (Throws e, w') => (Throws e, w')
       | (Blocks, w') => (Blocks, w')
       | (Undefined, w') => (Undefined, w')
       end.

Definition throw {A} (e : exception E) : M A := λ w, (Throws e, w).

(** [try { m } catch (...) { }] *)
Definition try_catch_all (m : M unit) : M unit :=
  λ w, match m w with
       | (Throws _, w') => (Returns tt, w')
       | r => r
       end.

(** Calling a member function of the shared state that [l] points to. *)
Definition call_state {A} (l : loc) (f : SharedState.t T E → outcome E A * SharedState.t T E)
  : M A :=
  λ w, match heap w !! l with
       | Some s => let '(r, s') := f s in
                   (r, {| heap := <[l := s']> (heap w); objs := objs w |})
       | None => (Undefined, w)
       end.

(** [std::make_shared<SharedState<T>>()] *)
Definition make_shared : M loc :=
  λ w, let l := fresh (dom (heap w)) in
       (Returns l, {| heap := <[l := SharedState.init]> (heap w); objs := objs w |}).

(** Reading and updating the promise object at an address. *)
Definition load (a : addr) : M promise_obj :=
  λ w, match objs w !! a with
       | Some p => (Returns p, w)
       | None => (Undefined, w)
       end.

Definition update (a : addr) (f : promise_obj → promise_obj) : M unit :=
  λ w, match objs w !! a with
       | Some p => (Returns tt, {| heap := heap w; objs := <[a := f p]> (objs w) |})
       | None => (Undefined, w)
       end.

(** Start and end of a promise object's lifetime. *)
Definition emplace (a : addr) (p : promise_obj) : M unit :=
  λ w, (Returns tt, {| heap := heap w; objs := <[a := p]> (objs w) |}).

Definition release (a : addr) : M unit :=
  λ w, (Returns tt, {| heap := heap w; objs := delete a (objs w) |}).
End World.
Arguments world : clear implicits.
Arguments M : clear implicits.

Notation "x <- m ;; k" := (bind m (λ x, k))
  (at level 100, m at next level, right associativity).
Notation "m ;;; k" := (bind m (λ _, k))
  (at level 100, right associativity).

Definition set_state_ (o : option loc) (p : promise_obj) : promise_obj :=
  {| prom_state := o; prom_future_retrieved := prom_future_retrieved p |}.
Definition set_future_retrieved_ (b : bool) (p : promise_obj) : promise_obj :=
  {| prom_state := prom_state p; prom_future_retrieved := b |}.

(** ** MyFuture<T> *)

Module MyFuture.
(** The one data member; a future is a value (it is copyable and none of
    its member functions assigns to it). *)
Record t : Type := mk { state_ : option loc }.

Section Defs.
Context {T E : Type}.

Definition get (this : t) : M T E T :=
  match state_ this with
  | None => throw (runtime_error "Future has no associated state")
  | Some l =>
      value <- call_state l SharedState.get_value ;;
      ret value
  end.

Definition is_ready (this : t) : M T E bool :=
  match state_ this with
  | None => ret false
  | Some l => call_state l SharedState.is_ready
  end.

Definition wait (this : t) : M T E unit :=
  match state_ this with
  | None => throw (runtime_error "Future has no associated state")
  | Some l => call_state l SharedState.wait
  end.

Definition valid (this : t) : M T E bool :=
  ret (bool_decide (state_ this ≠ None)).
End Defs.
End MyFuture.

(** ** MyPromise<T> *)

Module MyPromise.
Abbreviation t := promise_obj (only parsing).
Abbreviation state_ := prom_state (only parsing).
Abbreviation future_retrieved_ := prom_future_retrieved (only parsing).

Section Defs.
Context {T E : Type}.

(** [MyPromise()] constructing the object at address [this]. *)
Definition ctor (this : addr) : M T E unit :=
  l <- make_shared ;;
  emplace this {| prom_state := Some l; prom_future_retrieved := false |}.

(** [MyPromise(MyPromise&& other)]: the member initialisers take
    [other]'s pointer (leaving null behind) and copy its flag; the body
    then sets [other]'s flag. *)
Definition move_ctor (this other : addr) : M T E unit :=
  o <- load other ;;
  emplace this {| prom_state := state_ o; prom_future_retrieved := future_retrieved_ o |} ;;;
  update other (set_state_ None) ;;;
  update other (set_future_retrieved_ true).

(** [operator=(MyPromise&& other)] *)
Definition move_assign (this other : addr) : M T E unit :=
  if decide (this ≠ other) then
    o <- load other ;;
    update other (set_state_ None) ;;;
    update this (set_state_ (state_ o)) ;;;
    o' <- load other ;;
    update this (set_future_retrieved_ (future_retrieved_ o')) ;;;
    update other (set_future_retrieved_ true)
  else
    _ <- load this ;; ret tt.

Definition get_future (this : addr) : M T E MyFuture.t :=
  p <- load this ;;
  if negb (bool_decide (is_Some (state_ p))) || future_retrieved_ p then
    throw (runtime_error "Future already retrieved or no state")
  else
    update this (set_future_retrieved_ true) ;;;
    ret (MyFuture.mk (state_ p)).

(** Both overloads ([const T&] and [T&&]) hand the value to the state. *)
Definition set_value (this : addr) (value : T) : M T E unit :=
  p <- load this ;;
  match state_ p with
  | None => throw (runtime_error "Promise has no state")
  | Some l => call_state l (SharedState.set_value value)
  end.

Definition set_exception (this : addr) (p : exception_ptr E) : M T E unit :=
  o <- load this ;;
  match state_ o with
  | None => throw (runtime_error "Promise has no state")
  | Some l => call_state l (SharedState.set_exception p)
  end.

(** [~MyPromise()], followed by the end of the object's lifetime. *)
Definition dtor (this : addr) : M T E unit :=
  p <- load this ;;
  match state_ p with
  | Some l =>
      r <- call_state l SharedState.is_ready ;;
      if negb r && future_retrieved_ p then
        try_catch_all
          (call_state l
             (SharedState.set_exception (Some (runtime_error "Broken promise"))))
      else ret tt
  | None => ret tt
  end ;;;
  release this.
End Defs.
End MyPromise.

(** ** Client programs *)

(** A client is a sequence of calls on promise objects and futures, each
    call atomic; calls of different threads interleave in one sequence.  A
    call that throws or blocks stops that call only: the calls after it in
    the sequence (made by a handler or by other threads) still run. *)
Module Client.
Section Defs.
Context {T E : Type}.

Inductive call : Type :=
| Construct (this : addr)
| MoveConstruct (this other : addr)
| MoveAssign (this other : addr)
| GetFuture (this : addr)
| SetValue (this : addr) (value : T)
| SetException (this : addr) (p : exception_ptr E)
| Destroy (this : addr)
| Get (f : MyFuture.t)
| IsReady (f : MyFuture.t)
| Wait (f : MyFuture.t)
| Valid (f : MyFuture.t).

Definition exec (c : call) (w : world T E) : world T E :=
  match c with
  | Construct this => (MyPromise.ctor this w).2
  | MoveConstruct this other => (MyPromise.move_ctor this other w).2
  | MoveAssign this other => (MyPromise.move_assign this other w).2
  | GetFuture this => (MyPromise.get_future this w).2
  | SetValue this value => (MyPromise.set_value this value w).2
  | SetException this p => (MyPromise.set_exception this p w).2
  | Destroy this => (MyPromise.dtor this w).2
  | Get f => (MyFuture.get f w).2
  | IsReady f => (MyFuture.is_ready f w).2
  | Wait f => (MyFuture.wait f w).2
  | Valid f => (MyFuture.valid f w).2
  end.

Definition run (cs : list call) (w : world T E) : world T E :=
  foldl (flip exec) w cs.

(** Worlds a client can bring about, starting with no object at all. *)
Definition reachable (w : world T E) : Prop := ∃ cs, run cs init_world = w.

(** A client that never hands a null pointer to [set_exception]. *)
Definition passes_null (c : call) : bool :=
  match c with
  | SetException _ None => true
  | _ => false
  end.

Definition null_free (cs : list call) : Prop :=
  Forall (λ c, passes_null c = false) cs.


(** Calls that involve the promise object at [this] in any way other than
    writing through it. *)
Definition touches (this : addr) (c : call) : bool :=
  match c with
  | Construct a | GetFuture a | Destroy a => bool_decide (a = this)
  | MoveConstruct a b | MoveAssign a b =>
      bool_decide (a = this) || bool_decide (b = this)
  | _ => false
  end.

(** The member functions a client can invoke on one promise object, with
    the future of [get_future] as the only result that is not [void]. *)
Inductive method : Type :=
| CallGetFuture
| CallSetValue (value : T)
| CallSetException (p : exception_ptr E)
| CallDestroy.

Definition invoke (m : method) (this : addr) : M T E (option MyFuture.t) :=
  match m with
  | CallGetFuture => f <- MyPromise.get_future this ;; ret (Some f)
  | CallSetValue value => MyPromise.set_value this value ;;; ret None
  | CallSetException p => MyPromise.set_exception this p ;;; ret None
  | CallDestroy => MyPromise.dtor this ;;; ret None
  end.

End Defs.
Arguments call : clear implicits.
Arguments method : clear implicits.
End Client.

(** ** How heaps change *)

Section Evolution.
Context {T E : Type}.

(** [h'] comes from [h] by calls (each satisfying [P]) on the records of
    [h] and on newly allocated records; no record disappears. *)
Definition heap_evolves (P : SharedState.op T E → Prop)
    (h h' : gmap loc (SharedState.t T E)) : Prop :=
  ∀ l, match h !! l with
       | Some s => ∃ os, Forall P os ∧ h' !! l = Some (SharedState.run os s)
       | None =>
           h' !! l = None
           ∨ ∃ os, Forall P os ∧ h' !! l = Some (SharedState.run os SharedState.init)
       end.

Definition evolving (P : SharedState.op T E → Prop) {A} (m : M T E A) : Prop :=
  ∀ w, heap_evolves P (heap w) (heap (m w).2).

Definition any_op : SharedState.op T E → Prop := λ _, True.
Definition non_null_op : SharedState.op T E → Prop :=
  λ o, o ≠ SharedState.SetException None.

(** A predicate on calls that admits every write except, possibly, the
    one with a null pointer. *)
Definition admits_writes (P : SharedState.op T E → Prop) : Prop :=
  (∀ val, P (SharedState.SetValue val))
  ∧ (∀ e, P (SharedState.SetException (Some e))).

(** Every promise object with a state points at a record of the heap. *)
Definition no_dangling (w : world T E) : Prop :=
  ∀ a p l, objs w !! a = Some p → prom_state p = Some l → is_Some (heap w !! l).



(** [I] is an invariant of the member function [m]. *)
Definition preserves {A} (I : world T E → Prop) (m : M T E A) : Prop :=
  ∀ w, I w → I (m w).2.


End Evolution.

(** Sample clients, as in [main]: a promise at address 1 whose future has
    been taken, and two new promises at addresses 1 and 2. *)
Definition demo_calls : list (Client.call Z string) :=
  [Client.Construct 1; Client.GetFuture 1].
Definition demo_world : world Z string := Client.run demo_calls init_world.
Definition demo_future : MyFuture.t := MyFuture.mk (Some 0).
Definition two_promises : world Z string :=
  Client.run [Client.Construct 1; Client.Construct 2] init_world.
(** The promise of [demo_world] after [set_value(42)]; and a promise at
    address 1 with its future taken next to a new promise at address 2. *)
Definition written_calls : list (Client.call Z string) :=
  demo_calls ++ [Client.SetValue 1 42%Z].
Definition written_world : world Z string := Client.run written_calls init_world.
Definition issued_and_new_calls : list (Client.call Z string) :=
  [Client.Construct 1; Client.GetFuture 1; Client.Construct 2].
Definition issued_and_new : world Z string :=
  Client.run issued_and_new_calls init_world.

(** ** Ownership of shared states *)

Section Ownership.
Context {T E : Type}.

(** No two promise objects hold a pointer to the same shared state. *)
Definition unique_owner (w : world T E) : Prop :=
  ∀ a b p q l,
    objs w !! a = Some p → objs w !! b = Some q →
    prom_state p = Some l → prom_state q = Some l → a = b.

(** No promise object holds a pointer to the record at [l]. *)
Definition unreferenced (l : loc) (w : world T E) : Prop :=
  ∀ a p, objs w !! a = Some p → prom_state p ≠ Some l.

(** The writes on a shared state that the calls [cs] of a client can
    cause: [set_value] and [set_exception] hand their argument on, and
    the destructor writes the broken-promise error. *)
Definition written_by (cs : list (Client.call T E)) (o : SharedState.op T E) : Prop :=
  match o with
  | SharedState.SetValue val => ∃ a, Client.SetValue a val ∈ cs
  | SharedState.SetException (Some e) =>
      (∃ a, Client.SetException a (Some e) ∈ cs)
      ∨ (e = broken_promise ∧ ∃ a, Client.Destroy a ∈ cs)
  | SharedState.SetException None => ∃ a, Client.SetException a None ∈ cs
  | _ => True
  end.
End Ownership.

(** ** The demo producer [produce_data]

    [produce_data] also writes to [std::cout] and sleeps.  The lines written
    are collected, in order, next to the world; sleeping changes neither
    (time is not part of the model).  [T] is [int], whose value 42 is the
    integer 42. *)

Section Demo.
Context {E : Type}.

Definition IO (A : Type) : Type :=
  list string → world Z E → outcome E A * list string * world Z E.

Definition io_seq {A} (m : IO unit) (k : IO A) : IO A :=
  λ out w, match m out w with
           | (Returns _, out', w') => k out' w'
           | (Throws e, out', w') => (Throws e, out', w')
           | (Blocks, out', w') => (Blocks, out', w')
           | (Undefined, out', w') => (Undefined, out', w')
           end.

(** A member function of the promise, called by the producer. *)
Definition lift {A} (m : M Z E A) : IO A :=
  λ out w, let '(r, w') := m w in (r, out, w').

(** [std::cout << line << std::endl] *)
Definition print (line : string) : IO unit :=
  λ out w, (Returns tt, out ++ [line], w).

(** [std::this_thread::sleep_for(std::chrono::seconds(n))] *)
Definition sleep_for (seconds : nat) : IO unit :=
  λ out w, (Returns tt, out, w).

(** [try { m } catch (...) { handler }], the handler being given
    [std::current_exception()]. *)
Definition try_catch (m : IO unit) (handler : exception_ptr E → IO unit) : IO unit :=
  λ out w, match m out w with
           | (Throws e, out', w') => handler (Some e) out' w'
           | r => r
           end.

(** Leaving the scope of an object with destructor [d], by return or by
    an exception passing through.  (An exception leaving a destructor ends
    the program; [~MyPromise] catches what its body can raise.) *)
Definition at_scope_exit {A} (m : IO A) (d : IO unit) : IO A :=
  λ out w, match m out w with
           | (Returns a, out', w') =>
               match d out' w' with
               | (Returns _, out'', w'') => (Returns a, out'', w'')
               | (Throws _, out'', w'') => (Undefined, out'', w'')
               | (Blocks, out'', w'') => (Blocks, out'', w'')
               | (Undefined, out'', w'') => (Undefined, out'', w'')
               end
           | (Throws e, out', w') =>
               match d out' w' with
               | (Returns _, out'', w'') => (Throws e, out'', w'')
               | (Throws _, out'', w'') => (Undefined, out'', w'')
               | (Blocks, out'', w'') => (Blocks, out'', w'')
               | (Undefined, out'', w'') => (Undefined, out'', w'')
               end
           | r => r
           end.

(** [void produce_data(MyPromise<int> promise)], the parameter object
    being at address [promise]; it is destroyed when the function exits. *)
Definition produce_data (promise : addr) : IO unit :=
  at_scope_exit
    (try_catch
       (io_seq (print "Producer: Working...")
          (io_seq (sleep_for 2)
             (lift (MyPromise.set_value promise 42%Z))))
       (λ current_exception,
          io_seq (lift (MyPromise.set_exception promise current_exception))
            (print "Producer: Exception set.")))
    (lift (MyPromise.dtor promise)).
End Demo.

(** ** Callers suspended on the condition variable

    The member functions above say what a call does that is entered in a
    given state.  A call that has reached [cv_.wait(lock, pred)] with the
    predicate false is suspended inside the shared state; it goes on only
    when a [cv_.notify_one()] picks it, and then tests the predicate again.
    This layer keeps, for every shared state, the callers suspended on its
    [cv_], and gives the two writers their last line back: [notify_one]
    resumes one of them.  Which one is not specified: it is the [pick]
    every notifying function takes.  Wake-ups without a notification are
    not part of the model: it has the wake-ups the code causes. *)

Module Concurrent.
Section Defs.
Context {T E : Type}.

(** The two member functions that wait: [get_value] and [wait]. *)
Inductive pending : Type := PendingGet | PendingWait.

Record waiter : Type := mk_waiter {
  waiter_thread : nat;
  waiter_call : pending
}.

(** The world, the callers suspended on the [cv_] of each shared state, and
    the outcomes of the calls resumed so far, by thread ([None] standing
    for [void]). *)
Record cworld : Type := mk_cworld {
  base : world T E;
  cv_ : gmap loc (list waiter);
  resumed : list (nat * outcome E (option T))
}.

Definition CM (A : Type) : Type := cworld → outcome E A * cworld.

Definition cret {A} (a : A) : CM A := λ cw, (Returns a, cw).

Definition cbind {A B} (m : CM A) (k : A → CM B) : CM B :=
  λ cw, match m cw with
        | (Returns a, cw') => k a cw'
        | (Throws e, cw') => (Throws e, cw')
        | (Blocks, cw') => (Blocks, cw')
        | (Undefined, cw') => (Undefined, cw')
        end.

(** [try { m } catch (...) { }] *)
Definition ctry_catch_all (m : CM unit) : CM unit :=
  λ cw, match m cw with
        | (Throws _, cw') => (Returns tt, cw')
        | r => r
        end.

(** A member function that neither waits nor notifies. *)
Definition clift {A} (m : M T E A) : CM A :=
  λ cw, let '(r, w') := m (base cw) in
        (r, {| base := w'; cv_ := cv_ cw; resumed := resumed cw |}).

(** The callers suspended on the [cv_] of the state at [l]. *)
Definition waiters (l : loc) (cw : cworld) : list waiter :=
  default [] (cv_ cw !! l).

Definition suspend (t : nat) (l : loc) (k : pending) (cw : cworld) : cworld :=
  {| base := base cw;
     cv_ := <[l := waiters l cw ++ [mk_waiter t k]]> (cv_ cw);
     resumed := resumed cw |}.

(** What a resumed call finds: it runs on from the test of the predicate. *)
Definition resume_result (k : pending) (s : SharedState.t T E) : outcome E (option T) :=
  match k with
  | PendingGet =>
      match (SharedState.get_value s).1 with
      | Returns v => Returns (Some v)
      | Throws e => Throws e
      | Blocks => Blocks
      | Undefined => Undefined
      end
  | PendingWait =>
      match (SharedState.wait s).1 with
      | Returns _ => Returns None
      | Throws e => Throws e
      | Blocks => Blocks
      | Undefined => Undefined
      end
  end.

(** [cv_.notify_one()] on the state at [l]: with nobody suspended, nothing
    happens; otherwise one suspended caller is picked and tests the
    predicate again: it ends its call, or (predicate still false) stays
    suspended. *)
Definition notify_one (pick : nat) (l : loc) : CM unit :=
  λ cw,
    let ws := waiters l cw in
    let i := pick `mod` length ws in
    match ws !! i, heap (base cw) !! l with
    | Some x, Some s =>
        match resume_result (waiter_call x) s with
        | Blocks => (Returns tt, cw)
        | r =>
            (Returns tt,
             {| base := base cw;
                cv_ := <[l := delete i ws]> (cv_ cw);
                resumed := resumed cw ++ [(waiter_thread x, r)] |})
        end
    | _, _ => (Returns tt, cw)
    end.

(** [SharedState::set_value] and [SharedState::set_exception] of the state
    at [l], with their last line: the notification is reached when the
    function has not thrown. *)
Definition state_set_value (pick : nat) (l : loc) (val : T) : CM unit :=
  cbind (clift (call_state l (SharedState.set_value val)))
    (λ _, notify_one pick l).

Definition state_set_exception (pick : nat) (l : loc) (p : exception_ptr E) : CM unit :=
  cbind (clift (call_state l (SharedState.set_exception p)))
    (λ _, notify_one pick l).

(** [MyFuture::get] and [MyFuture::wait], called by thread [t]: a call that
    reaches the wait with the predicate false is suspended on the state's
    [cv_] (outcome [Blocks]); its result, once resumed, is recorded in
    [resumed]. *)
Definition get (t : nat) (f : MyFuture.t) : CM T :=
  λ cw, match MyFuture.get f (base cw), MyFuture.state_ f with
        | (Blocks, _), Some l => (Blocks, suspend t l PendingGet cw)
        | (r, w'), _ => (r, {| base := w'; cv_ := cv_ cw; resumed := resumed cw |})
        end.

Definition wait (t : nat) (f : MyFuture.t) : CM unit :=
  λ cw, match MyFuture.wait f (base cw), MyFuture.state_ f with
        | (Blocks, _), Some l => (Blocks, suspend t l PendingWait cw)
        | (r, w'), _ => (r, {| base := w'; cv_ := cv_ cw; resumed := resumed cw |})
        end.

(** The writers of [MyPromise] and its destructor, as in [MyPromise] above
    but calling the notifying functions of the state. *)
Definition set_value (pick : nat) (this : addr) (value : T) : CM unit :=
  cbind (clift (load this)) (λ p,
    match prom_state p with
    | None => clift (throw (runtime_error "Promise has no state"))
    | Some l => state_set_value pick l value
    end).

Definition set_exception (pick : nat) (this : addr) (p : exception_ptr E) : CM unit :=
  cbind (clift (load this)) (λ o,
    match prom_state o with
    | None => clift (throw (runtime_error "Promise has no state"))
    | Some l => state_set_exception pick l p
    end).

Definition dtor (pick : nat) (this : addr) : CM unit :=
  cbind (clift (load this)) (λ p,
    cbind
      match prom_state p with
      | Some l =>
          cbind (clift (call_state l SharedState.is_ready)) (λ r,
            if negb r && prom_future_retrieved p then
              ctry_catch_all
                (state_set_exception pick l (Some (runtime_error "Broken promise")))
            else cret tt)
      | None => cret tt
      end
      (λ _, clift (release this))).

(** The calls of a client with several threads; the writers and the
    destructor carry the pick of their notification, [get] and [wait] the
    calling thread. *)
Inductive call : Type :=
| Construct (this : addr)
| MoveConstruct (this other : addr)
| MoveAssign (this other : addr)
| GetFuture (this : addr)
| SetValue (pick : nat) (this : addr) (value : T)
| SetException (pick : nat) (this : addr) (p : exception_ptr E)
| Destroy (pick : nat) (this : addr)
| Get (t : nat) (f : MyFuture.t)
| IsReady (f : MyFuture.t)
| Wait (t : nat) (f : MyFuture.t)
| Valid (f : MyFuture.t).

Definition exec (c : call) (cw : cworld) : cworld :=
  match c with
  | Construct this => (clift (MyPromise.ctor this) cw).2
  | MoveConstruct this other => (clift (MyPromise.move_ctor this other) cw).2
  | MoveAssign this other => (clift (MyPromise.move_assign this other) cw).2
  | GetFuture this => (clift (MyPromise.get_future this) cw).2
  | SetValue pick this value => (set_value pick this value cw).2
  | SetException pick this p => (set_exception pick this p cw).2
  | Destroy pick this => (dtor pick this cw).2
  | Get t f => (get t f cw).2
  | IsReady f => (clift (MyFuture.is_ready f) cw).2
  | Wait t f => (wait t f cw).2
  | Valid f => (clift (MyFuture.valid f) cw).2
  end.

Definition run (cs : list call) (cw : cworld) : cworld :=
  foldl (flip exec) cw cs.


End Defs.
Arguments cworld : clear implicits.
Arguments CM : clear implicits.
Arguments call : clear implicits.
End Concurrent.


(** * Properties of SharedState<T> *)

Section SharedStateFacts.
Context {T E : Type}.
Implicit Types (s : SharedState.t T E) (o : SharedState.op T E)
  (os : list (SharedState.op T E)) (w : SharedState.writer T E).
Import SharedState.

Lemma set_value_ready s val :
  ready_ s = true → set_value val s = (Throws already_satisfied, s).
Proof. unfold set_value. by intros ->. Qed.

Lemma set_exception_ready s p :
  ready_ s = true → set_exception p s = (Throws already_satisfied, s).
Proof. unfold set_exception. by intros ->. Qed.

Lemma write_ready s w :
  ready_ s = true → write w s = (Throws already_satisfied, s).
Proof. destruct w; [apply set_value_ready | apply set_exception_ready]. Qed.

Lemma write_pending s w :
  ready_ s = false → (write w s).1 = Returns tt ∧ ready_ (write w s).2 = true.
Proof.
  intros Hs. destruct w; simpl; unfold set_value, set_exception; by rewrite Hs.
Qed.

(** Readers leave the record alone, whatever its content. *)
Lemma get_value_same s : (get_value s).2 = s.
Proof. unfold get_value. by repeat case_match. Qed.

Lemma wait_same s : (wait s).2 = s.
Proof. unfold wait. by case_match. Qed.

(** A call either leaves the record alone or makes it ready. *)
Lemma step_same_or_ready o s : step o s = s ∨ ready_ (step o s) = true.
Proof.
  destruct o; simpl; auto using get_value_same, wait_same;
    unfold set_value, set_exception; destruct (ready_ s); auto.
Qed.

(** Ready is terminal: no call changes a ready record. *)
Lemma step_ready o s : ready_ s = true → step o s = s.
Proof.
  intros Hs. destruct o; simpl; auto using get_value_same, wait_same.
  - by rewrite set_value_ready.
  - by rewrite set_exception_ready.
Qed.

Lemma run_cons o os s : run (o :: os) s = run os (step o s).
Proof. done. Qed.

Lemma run_ready os s : ready_ s = true → run os s = s.
Proof.
  revert s. induction os as [|o os IH]; intros s Hs; [done|].
  rewrite run_cons, step_ready; auto.
Qed.

Lemma run_app os1 os2 s : run (os1 ++ os2) s = run os2 (run os1 s).
Proof. unfold run. apply foldl_app. Qed.

(** A record that is not ready after some calls was never written. *)
Lemma run_pending os s : ready_ (run os s) = false → run os s = s.
Proof.
  revert s. induction os as [|o os IH]; intros s Hs; [done|].
  rewrite run_cons in *. specialize (IH _ Hs). rewrite IH in *.
  destruct (step_same_or_ready o s) as [->| Hr]; [done | congruence].
Qed.

Lemma run_init_pending os :
  ready_ (run os (@init T E)) = false → run os init = init.
Proof. apply run_pending. Qed.

(** What a pending record holds after its first write. *)
Lemma get_after_set_value s val :
  ready_ s = false → exception_ptr_ s = None →
  get_value (set_value val s).2 = (Returns val, (set_value val s).2).
Proof. intros Hr He. unfold set_value, get_value. rewrite Hr. simpl. by rewrite He. Qed.

Lemma get_after_set_exception s e :
  ready_ s = false →
  get_value (set_exception (Some e) s).2 = (Throws e, (set_exception (Some e) s).2).
Proof. intros Hr. unfold set_exception, get_value. by rewrite Hr. Qed.

(** C1.  At most one write takes effect.  On a shared state that is still
    pending after any earlier calls [hist], the first of two writes
    ([set_value] or [set_exception], in any combination) returns normally;
    the second one, made after any further calls [mid], throws
    "Promise already satisfied" and leaves the record as the first write
    left it, so [get_value] answers the same before and after the failed
    attempt: the value of a first [set_value], the exception of a first
    [set_exception] with a non-null pointer.  (A first [set_exception]
    with a null pointer installs neither; [get_value] then throws the
    internal error, again the same before and after the second write.) *)
Theorem C1_at_most_once_write hist mid s w1 w2 :
  s = run hist init →
  ready_ s = false →
  let s1 := (write w1 s).2 in
  let s2 := (write w2 (run mid s1)).2 in
  (write w1 s).1 = Returns tt
  ∧ write w2 (run mid s1) = (Throws already_satisfied, s1)
  ∧ s2 = s1
  ∧ get_value s2 = get_value s1
  ∧ get_value s2
    = match w1 with
      | write_value val => (Returns val, s2)
      | write_exception (Some e) => (Throws e, s2)
      | write_exception None => (Throws internal_error, s2)
      end.
Proof.
  intros Hhist Hs s1 s2.
  assert (s = init) as Hinit.
  { subst s. by apply run_init_pending. }
  destruct (write_pending s w1 Hs) as [Hret Hready1].
  assert (run mid s1 = s1) as Hmid by by apply run_ready.
  assert (s2 = s1) as H21.
  { unfold s2. rewrite Hmid. by rewrite write_ready. }
  split_and!; try done.
  - rewrite Hmid. by apply write_ready.
  - by rewrite H21.
  - rewrite H21. unfold s1. destruct w1 as [val|[e|]]; simpl.
    + apply get_after_set_value; [done | by rewrite Hinit].
    + by apply get_after_set_exception.
    + by rewrite Hinit.
Qed.

(** Ready never reverts, whatever calls follow. *)
Lemma ready_monotone os s : ready_ s = true → ready_ (run os s) = true.
Proof. intros Hs. by rewrite run_ready. Qed.

Lemma invariant_step o s :
  o ≠ SetException None →
  ready_ s = exactly_one_outcome s →
  (ready_ s = false → s = init) →
  ready_ (step o s) = exactly_one_outcome (step o s)
  ∧ (ready_ (step o s) = false → step o s = init).
Proof.
  intros Ho Hinv Hpend.
  destruct (ready_ s) eqn:Hr.
  { rewrite step_ready; [|done]. rewrite Hr. split; [done | congruence]. }
  rewrite (Hpend eq_refl) in *.
  destruct o as [val|[e|]| | |]; try done; simpl; auto.
Qed.

(** Without null pointers the data-model invariant holds in every
    reachable record: ready exactly when one of the two members is set. *)
Lemma invariant_null_free os :
  null_free os →
  ready_ (run os (@init T E)) = exactly_one_outcome (run os init).
Proof.
  intros Hnf.
  cut (∀ s, ready_ s = exactly_one_outcome s → (ready_ s = false → s = init) →
            ready_ (run os s) = exactly_one_outcome (run os s)).
  { intros Hcut. by apply Hcut. }
  induction Hnf as [|o os Ho _ IH]; intros s Hinv Hpend; [done|].
  rewrite run_cons.
  destruct (invariant_step o s Ho Hinv Hpend). by apply IH.
Qed.

(** C2, evaluated at the failing client: one [set_exception] with a null
    pointer on a new shared state returns normally and leaves [ready_]
    true with neither member populated; the record stays so under all
    later calls. *)
Theorem C2_ready_without_outcome os :
  let s := run (SetException None :: os) (@init T E) in
  (set_exception None (@init T E)).1 = Returns tt
  ∧ ready_ s = true
  ∧ value_ s = None ∧ exception_ptr_ s = None
  ∧ exactly_one_outcome s = false
  ∧ ¬ (ready_ s = true ↔ exactly_one_outcome s = true).
Proof.
  intros s. unfold s. rewrite run_cons. simpl.
  rewrite run_ready; [|done]. simpl.
  split_and!; try done. intros [H _]. by specialize (H eq_refl).
Qed.

(** C8.  A record with [ready_] set and neither [value_] nor
    [exception_ptr_] populated makes [get_value] throw the internal-error
    [runtime_error]; no value is returned and the record is unchanged. *)
Theorem C8_get_value_internal_error s :
  ready_ s = true → value_ s = None → exception_ptr_ s = None →
  get_value s = (Throws internal_error, s).
Proof. intros Hr Hv He. unfold get_value. by rewrite Hr, He, Hv. Qed.
End SharedStateFacts.

(** * How member functions change the heap *)

Section EvolutionFacts.
Context {T E : Type}.
Implicit Types (w : world T E) (h : gmap loc (SharedState.t T E))
  (P : SharedState.op T E → Prop).

Lemma world_eta w : {| heap := heap w; objs := objs w |} = w.
Proof. by destruct w. Qed.

Lemma heap_evolves_refl P h : heap_evolves P h h.
Proof.
  intros l. destruct (h !! l) as [s|] eqn:Hl; [|by left].
  exists []. by split.
Qed.

Lemma heap_evolves_trans P h1 h2 h3 :
  heap_evolves P h1 h2 → heap_evolves P h2 h3 → heap_evolves P h1 h3.
Proof.
  intros H12 H23 l. specialize (H12 l). specialize (H23 l).
  destruct (h1 !! l) as [s1|].
  - destruct H12 as (os1 & HP1 & Hl2). rewrite Hl2 in H23.
    destruct H23 as (os2 & HP2 & Hl3).
    exists (os1 ++ os2). split; [by apply Forall_app|].
    by rewrite run_app.
  - destruct H12 as [Hl2|(os1 & HP1 & Hl2)]; rewrite Hl2 in H23; [done|].
    destruct H23 as (os2 & HP2 & Hl3). right.
    exists (os1 ++ os2). split; [by apply Forall_app|].
    by rewrite run_app.
Qed.

(** One call on one record. *)
Lemma heap_evolves_call P h l s o :
  h !! l = Some s → P o → heap_evolves P h (<[l := SharedState.step o s]> h).
Proof.
  intros Hl Ho l'. destruct (decide (l = l')) as [<-|Hne].
  - rewrite Hl, lookup_insert_eq. exists [o]. split; [by constructor | done].
  - rewrite lookup_insert_ne by done.
    destruct (h !! l') eqn:Hl'; [|by left]. exists []. by split.
Qed.

Lemma heap_evolves_same P h l s :
  h !! l = Some s → heap_evolves P h (<[l := s]> h).
Proof. intros Hl. rewrite insert_id by done. apply heap_evolves_refl. Qed.

(** One allocation. *)
Lemma heap_evolves_alloc P h l :
  h !! l = None → heap_evolves P h (<[l := SharedState.init]> h).
Proof.
  intros Hl l'. destruct (decide (l = l')) as [<-|Hne].
  - rewrite Hl, lookup_insert_eq. right. exists []. by split.
  - rewrite lookup_insert_ne by done.
    destruct (h !! l') eqn:Hl'; [|by left]. exists []. by split.
Qed.

Lemma evolving_ret P {A} (a : A) : evolving P (ret (T:=T) (E:=E) a).
Proof. intros w. apply heap_evolves_refl. Qed.

Lemma evolving_throw P {A} e : evolving P (throw (T:=T) (A:=A) e).
Proof. intros w. apply heap_evolves_refl. Qed.

Lemma evolving_bind P {A B} (m : M T E A) (k : A → M T E B) :
  evolving P m → (∀ a, evolving P (k a)) → evolving P (bind m k).
Proof.
  intros Hm Hk w. unfold bind. specialize (Hm w).
  destruct (m w) as [[a|e| |] w'] eqn:Hmw; simpl in *; try done.
  eapply heap_evolves_trans; [done | apply Hk].
Qed.

Lemma evolving_try_catch_all P (m : M T E unit) :
  evolving P m → evolving P (try_catch_all m).
Proof.
  intros Hm w. unfold try_catch_all. specialize (Hm w).
  by destruct (m w) as [[a|e| |] w'].
Qed.

Lemma evolving_load P a : evolving P (load (T:=T) (E:=E) a).
Proof. intros w. unfold load. case_match; apply heap_evolves_refl. Qed.

Lemma evolving_update P a f : evolving P (update (T:=T) (E:=E) a f).
Proof. intros w. unfold update. case_match; apply heap_evolves_refl. Qed.

Lemma evolving_emplace P a p : evolving P (emplace (T:=T) (E:=E) a p).
Proof. intros w. apply heap_evolves_refl. Qed.

Lemma evolving_release P a : evolving P (release (T:=T) (E:=E) a).
Proof. intros w. apply heap_evolves_refl. Qed.

Lemma evolving_make_shared P : evolving P (make_shared (T:=T) (E:=E)).
Proof.
  intros w. unfold make_shared. simpl. apply heap_evolves_alloc.
  apply not_elem_of_dom, is_fresh.
Qed.

Lemma evolving_call_state P {A} l
    (f : SharedState.t T E → outcome E A * SharedState.t T E) :
  (∀ s, (f s).2 = s ∨ ∃ o, P o ∧ (f s).2 = SharedState.step o s) →
  evolving P (call_state l f).
Proof.
  intros Hf w. unfold call_state.
  destruct (heap w !! l) as [s|] eqn:Hl; [|apply heap_evolves_refl].
  specialize (Hf s). destruct (f s) as [r s']. simpl in *.
  destruct Hf as [->|(o & Ho & ->)];
    [by apply heap_evolves_same | by apply heap_evolves_call].
Qed.
End EvolutionFacts.

Section ClientFacts.
Context {T E : Type}.
Implicit Types (w : world T E) (P : SharedState.op T E → Prop)
  (c : Client.call T E) (cs : list (Client.call T E)).

Lemma reader_get_value P l :
  evolving P (call_state (T:=T) (E:=E) l SharedState.get_value).
Proof. apply evolving_call_state. intros s. left. apply get_value_same. Qed.

Lemma reader_is_ready P l :
  evolving P (call_state (T:=T) (E:=E) l SharedState.is_ready).
Proof. apply evolving_call_state. intros s. by left. Qed.

Lemma reader_wait P l :
  evolving P (call_state (T:=T) (E:=E) l SharedState.wait).
Proof. apply evolving_call_state. intros s. left. apply wait_same. Qed.

Lemma writer_set_value P l val :
  P (SharedState.SetValue val) →
  evolving P (call_state (T:=T) (E:=E) l (SharedState.set_value val)).
Proof. intros HP. apply evolving_call_state. intros s. right. by eexists. Qed.

Lemma writer_set_exception P l p :
  P (SharedState.SetException p) →
  evolving P (call_state (T:=T) (E:=E) l (SharedState.set_exception p)).
Proof. intros HP. apply evolving_call_state. intros s. right. by eexists. Qed.

Local Ltac evolve :=
  repeat first
    [ apply evolving_bind; [|intros ?]
    | apply evolving_ret | apply evolving_throw
    | apply evolving_load | apply evolving_update
    | apply evolving_emplace | apply evolving_release
    | apply evolving_make_shared | apply evolving_try_catch_all
    | apply reader_get_value | apply reader_is_ready | apply reader_wait
    | apply writer_set_value | apply writer_set_exception
    | case_match ].

Lemma ctor_evolving P this : evolving P (MyPromise.ctor (T:=T) (E:=E) this).
Proof. unfold MyPromise.ctor. evolve. Qed.

Lemma move_ctor_evolving P this other :
  evolving P (MyPromise.move_ctor (T:=T) (E:=E) this other).
Proof. unfold MyPromise.move_ctor. evolve. Qed.

Lemma move_assign_evolving P this other :
  evolving P (MyPromise.move_assign (T:=T) (E:=E) this other).
Proof. unfold MyPromise.move_assign. evolve. Qed.

Lemma get_future_evolving P this :
  evolving P (MyPromise.get_future (T:=T) (E:=E) this).
Proof. unfold MyPromise.get_future. evolve. Qed.

Lemma set_value_evolving P this val :
  P (SharedState.SetValue val) →
  evolving P (MyPromise.set_value (E:=E) this val).
Proof. intros HP. unfold MyPromise.set_value. evolve. done. Qed.

Lemma set_exception_evolving P this p :
  P (SharedState.SetException p) →
  evolving P (MyPromise.set_exception (T:=T) this p).
Proof. intros HP. unfold MyPromise.set_exception. evolve. done. Qed.

Lemma dtor_evolving P this :
  admits_writes P → evolving P (MyPromise.dtor (T:=T) (E:=E) this).
Proof. intros [_ HP]. unfold MyPromise.dtor. evolve. apply HP. Qed.

Lemma future_get_evolving P f : evolving P (MyFuture.get (T:=T) (E:=E) f).
Proof. unfold MyFuture.get. evolve. Qed.

Lemma future_is_ready_evolving P f :
  evolving P (MyFuture.is_ready (T:=T) (E:=E) f).
Proof. unfold MyFuture.is_ready. evolve. Qed.

Lemma future_wait_evolving P f : evolving P (MyFuture.wait (T:=T) (E:=E) f).
Proof. unfold MyFuture.wait. evolve. Qed.

Lemma exec_evolves P c w :
  admits_writes P →
  (Client.passes_null c = true → P (SharedState.SetException None)) →
  heap_evolves P (heap w) (heap (Client.exec c w)).
Proof.
  intros HP Hnull. destruct c as [a|a b|a b|a|a val|a p|a|f|f|f|f]; simpl.
  - apply (ctor_evolving P a w).
  - apply (move_ctor_evolving P a b w).
  - apply (move_assign_evolving P a b w).
  - apply (get_future_evolving P a w).
  - apply (set_value_evolving P a val), HP.
  - apply (set_exception_evolving P a p). destruct p; [apply HP | by apply Hnull].
  - by apply (dtor_evolving P a).
  - apply (future_get_evolving P f w).
  - apply (future_is_ready_evolving P f w).
  - apply (future_wait_evolving P f w).
  - apply heap_evolves_refl.
Qed.

Lemma client_run_cons c cs w : Client.run (c :: cs) w = Client.run cs (Client.exec c w).
Proof. done. Qed.

Lemma run_evolves P cs w :
  admits_writes P →
  (Client.null_free cs ∨ P (SharedState.SetException None)) →
  heap_evolves P (heap w) (heap (Client.run cs w)).
Proof.
  intros HP. revert w. induction cs as [|c cs IH]; intros w Hnull.
  { apply heap_evolves_refl. }
  rewrite client_run_cons.
  apply (heap_evolves_trans _ _ (heap (Client.exec c w))).
  - apply exec_evolves; [done|]. intros Hc.
    destruct Hnull as [Hnf|?]; [|done].
    apply Forall_cons in Hnf as [Hnf _]. simpl in Hnf. congruence.
  - apply IH. destruct Hnull as [Hnf|?]; [left|by right].
    by apply Forall_cons in Hnf as [_ ?].
Qed.

(** Every record of a reachable heap is the result of calls on a new
    shared state. *)
Lemma reachable_records w l s :
  Client.reachable w → heap w !! l = Some s →
  ∃ os, s = SharedState.run os SharedState.init.
Proof.
  intros [cs <-] Hl.
  pose proof (run_evolves any_op cs init_world) as Hev.
  specialize (Hev (conj (λ _, I) (λ _, I)) (or_intror I) l).
  simpl in Hev. rewrite lookup_empty, Hl in Hev.
  destruct Hev as [?|(os & _ & ?)]; [done|]. exists os. congruence.
Qed.

(** A record that is still pending in a reachable heap is as new. *)
Lemma reachable_pending w l s :
  Client.reachable w → heap w !! l = Some s →
  SharedState.ready_ s = false → s = SharedState.init.
Proof.
  intros Hw Hl Hs. destruct (reachable_records w l s Hw Hl) as [os ->].
  by apply run_init_pending.
Qed.

(** A ready record stays where and as it is under all later calls. *)
Lemma ready_stable cs w l s :
  heap w !! l = Some s → SharedState.ready_ s = true →
  heap (Client.run cs w) !! l = Some s.
Proof.
  intros Hl Hs.
  pose proof (run_evolves any_op cs w) as Hev.
  specialize (Hev (conj (λ _, I) (λ _, I)) (or_intror I) l).
  rewrite Hl in Hev. destruct Hev as (os & _ & ->).
  by rewrite run_ready.
Qed.

(** Unless the client passes a null pointer to [set_exception], every
    record of a reachable heap is ready exactly when one of its two
    members is populated. *)
Lemma reachable_invariant cs l s :
  Client.null_free cs →
  heap (Client.run cs (@init_world T E)) !! l = Some s →
  SharedState.ready_ s = SharedState.exactly_one_outcome s.
Proof.
  intros Hnf Hl.
  assert (admits_writes (@non_null_op T E)) as Hadm by by split.
  pose proof (run_evolves non_null_op cs init_world Hadm (or_introl Hnf) l) as Hev.
  simpl in Hev. rewrite lookup_empty, Hl in Hev.
  destruct Hev as [?|(os & Hos & [= ->])]; [done|].
  by apply invariant_null_free.
Qed.
End ClientFacts.

(** * Properties of the two handles *)

Section HandleFacts.
Context {T E : Type}.
Implicit Types (w : world T E) (s : SharedState.t T E) (f : MyFuture.t)
  (p q : promise_obj) (e : exception E).

Local Ltac unfold_monad :=
  unfold bind, ret, throw, load, update, emplace, release, call_state,
    make_shared, try_catch_all in *.

Lemma call_state_live {A} w l s
    (g : SharedState.t T E → outcome E A * SharedState.t T E) :
  heap w !! l = Some s →
  call_state l g w
  = ((g s).1, {| heap := <[l := (g s).2]> (heap w); objs := objs w |}).
Proof. intros Hl. unfold call_state. rewrite Hl. by destruct (g s). Qed.

Lemma call_state_reader {A} w l s
    (g : SharedState.t T E → outcome E A * SharedState.t T E) :
  heap w !! l = Some s → (g s).2 = s → call_state l g w = ((g s).1, w).
Proof.
  intros Hl Hg. rewrite (call_state_live w l s) by done.
  rewrite Hg, insert_id by done. by rewrite world_eta.
Qed.

(** Reading through a future bound to a live record. *)
Lemma future_get_live w f l s :
  MyFuture.state_ f = Some l → heap w !! l = Some s →
  MyFuture.get f w = ((SharedState.get_value s).1, w).
Proof.
  intros Hf Hl. unfold MyFuture.get, bind. rewrite Hf.
  rewrite (call_state_reader w l s) by auto using get_value_same.
  by destruct (SharedState.get_value s).1.
Qed.

Lemma future_is_ready_live w f l s :
  MyFuture.state_ f = Some l → heap w !! l = Some s →
  MyFuture.is_ready f w = (Returns (SharedState.ready_ s), w).
Proof.
  intros Hf Hl. unfold MyFuture.is_ready. rewrite Hf.
  by rewrite (call_state_reader w l s).
Qed.

(** Reading through a future never changes the world. *)
Lemma future_get_world f w : (MyFuture.get f w).2 = w.
Proof.
  unfold MyFuture.get, bind. destruct (MyFuture.state_ f) as [l|]; [|done].
  destruct (heap w !! l) as [s|] eqn:Hl.
  - rewrite (call_state_reader w l s) by auto using get_value_same.
    by destruct (SharedState.get_value s).1.
  - unfold call_state. by rewrite Hl.
Qed.

Lemma future_is_ready_world f w : (MyFuture.is_ready f w).2 = w.
Proof.
  unfold MyFuture.is_ready. destruct (MyFuture.state_ f) as [l|]; [|done].
  destruct (heap w !! l) as [s|] eqn:Hl.
  - by rewrite (call_state_reader w l s).
  - unfold call_state. by rewrite Hl.
Qed.

Lemma future_wait_world f w : (MyFuture.wait f w).2 = w.
Proof.
  unfold MyFuture.wait. destruct (MyFuture.state_ f) as [l|]; [|done].
  destruct (heap w !! l) as [s|] eqn:Hl.
  - by rewrite (call_state_reader w l s) by auto using wait_same.
  - unfold call_state. by rewrite Hl.
Qed.

(** Writing through a promise object that holds a state. *)
Lemma promise_set_value_live w this p l s val :
  objs w !! this = Some p → prom_state p = Some l → heap w !! l = Some s →
  MyPromise.set_value this val w
  = ((SharedState.set_value val s).1,
     {| heap := <[l := (SharedState.set_value val s).2]> (heap w); objs := objs w |}).
Proof.
  intros Hp Hpl Hl. unfold MyPromise.set_value, bind, load.
  rewrite Hp, Hpl. by apply call_state_live.
Qed.

Lemma promise_set_exception_live w this p l s ptr :
  objs w !! this = Some p → prom_state p = Some l → heap w !! l = Some s →
  MyPromise.set_exception this ptr w
  = ((SharedState.set_exception ptr s).1,
     {| heap := <[l := (SharedState.set_exception ptr s).2]> (heap w);
        objs := objs w |}).
Proof.
  intros Hp Hpl Hl. unfold MyPromise.set_exception, bind, load.
  rewrite Hp, Hpl. by apply call_state_live.
Qed.

(** A write that returned normally found a pending record behind the
    promise and made it ready. *)
Lemma promise_set_value_returned w this p val w' :
  objs w !! this = Some p →
  MyPromise.set_value this val w = (Returns tt, w') →
  ∃ l s, prom_state p = Some l ∧ heap w !! l = Some s
         ∧ SharedState.ready_ s = false
         ∧ heap w' !! l = Some (SharedState.set_value val s).2.
Proof.
  intros Hp. unfold MyPromise.set_value, bind, load. rewrite Hp.
  destruct (prom_state p) as [l|] eqn:Hpl; [|done].
  unfold call_state. destruct (heap w !! l) as [s|] eqn:Hl; [|done].
  unfold SharedState.set_value at 1.
  destruct (SharedState.ready_ s) eqn:Hr; [done|].
  intros [= <-]. exists l, s. simpl. rewrite lookup_insert_eq.
  unfold SharedState.set_value. by rewrite Hr.
Qed.

Lemma promise_set_exception_returned w this p ptr w' :
  objs w !! this = Some p →
  MyPromise.set_exception this ptr w = (Returns tt, w') →
  ∃ l s, prom_state p = Some l ∧ heap w !! l = Some s
         ∧ SharedState.ready_ s = false
         ∧ heap w' !! l = Some (SharedState.set_exception ptr s).2.
Proof.
  intros Hp. unfold MyPromise.set_exception, bind, load. rewrite Hp.
  destruct (prom_state p) as [l|] eqn:Hpl; [|done].
  unfold call_state. destruct (heap w !! l) as [s|] eqn:Hl; [|done].
  unfold SharedState.set_exception at 1.
  destruct (SharedState.ready_ s) eqn:Hr; [done|].
  intros [= <-]. exists l, s. simpl. rewrite lookup_insert_eq.
  unfold SharedState.set_exception. by rewrite Hr.
Qed.

(** C4.  A failure written through the promise is what the reader gets.
    When [set_exception] with a non-null pointer to [e] returned normally
    on a promise, [get] on a future bound to the same shared state throws
    [e] itself (the state stores the pointer and rethrows through it),
    and leaves the world as it is, so every later [get] throws [e]
    again. *)
Theorem C4_failure_propagates_verbatim w this p f e w' :
  objs w !! this = Some p →
  MyFuture.state_ f = prom_state p →
  MyPromise.set_exception this (Some e) w = (Returns tt, w') →
  MyFuture.get f w' = (Throws e, w')
  ∧ MyFuture.get f (MyFuture.get f w').2 = (Throws e, w').
Proof.
  intros Hp Hf Hset.
  destruct (promise_set_exception_returned _ _ _ _ _ Hp Hset)
    as (l & s & Hpl & Hl & Hr & Hl').
  assert (MyFuture.get f w' = (Throws e, w')) as Hget.
  { rewrite (future_get_live w' f l _ ltac:(congruence) Hl').
    by rewrite get_after_set_exception. }
  by rewrite !Hget.
Qed.

(** C7.  Reading twice.  In a world the client can reach, when
    [set_value] with [val] returned normally on a promise, [get] on a
    future bound to the same shared state returns [val], and a second
    [get] returns [val] again; neither read changes the world, and the
    state is still ready afterwards. *)
Theorem C7_get_twice_same_value cs w this p f val w' :
  w = Client.run cs init_world →
  objs w !! this = Some p →
  MyFuture.state_ f = prom_state p →
  MyPromise.set_value this val w = (Returns tt, w') →
  let w1 := (MyFuture.get f w').2 in
  let w2 := (MyFuture.get f w1).2 in
  (MyFuture.get f w').1 = Returns val
  ∧ (MyFuture.get f w1).1 = Returns val
  ∧ w1 = w' ∧ w2 = w'
  ∧ MyFuture.is_ready f w2 = (Returns true, w2).
Proof.
  intros Hw Hp Hf Hset w1 w2.
  destruct (promise_set_value_returned _ _ _ _ _ Hp Hset)
    as (l & s & Hpl & Hl & Hr & Hl').
  assert (s = SharedState.init) as ->.
  { apply (reachable_pending w l); [by exists cs | done | done]. }
  assert (MyFuture.get f w' = (Returns val, w')) as Hget.
  { by rewrite (future_get_live w' f l _ ltac:(congruence) Hl'). }
  subst w1 w2. repeat (rewrite Hget; simpl). split_and!; try done.
  by rewrite (future_is_ready_live w' f l _ ltac:(congruence) Hl').
Qed.

(** C10.  A future without shared state answers [is_ready] with false
    (and [valid] with false) in every world, while [get] and [wait] on it
    throw "Future has no associated state"; none of the four changes the
    world. *)
Theorem C10_empty_future_is_ready_false w :
  let f := MyFuture.mk None in
  MyFuture.is_ready f w = (Returns false, w)
  ∧ MyFuture.get f w = (Throws future_no_state, w)
  ∧ MyFuture.wait f w = (Throws future_no_state, w)
  ∧ MyFuture.valid f w = (Returns false, w).
Proof. done. Qed.

(** Construction and the two cases of [get_future]. *)
Lemma ctor_world w this :
  MyPromise.ctor this w
  = (Returns tt,
     {| heap := <[fresh (dom (heap w)) := SharedState.init]> (heap w);
        objs := <[this := mk_promise (Some (fresh (dom (heap w)))) false]> (objs w) |}).
Proof. done. Qed.

Lemma get_future_first w this p l :
  objs w !! this = Some p → prom_state p = Some l →
  prom_future_retrieved p = false →
  MyPromise.get_future this w
  = (Returns (MyFuture.mk (Some l)),
     {| heap := heap w; objs := <[this := mk_promise (Some l) true]> (objs w) |}).
Proof.
  intros Hp Hpl Hfr. unfold MyPromise.get_future. unfold_monad.
  rewrite Hp, Hpl, Hfr. simpl. rewrite Hp. unfold set_future_retrieved_.
  by rewrite Hpl.
Qed.

Lemma get_future_refused w this p :
  objs w !! this = Some p →
  prom_state p = None ∨ prom_future_retrieved p = true →
  MyPromise.get_future this w = (Throws already_retrieved_or_no_state, w).
Proof.
  intros Hp Hor. unfold MyPromise.get_future. unfold_monad. rewrite Hp.
  destruct Hor as [-> | ->]; [done | by rewrite orb_true_r].
Qed.

Lemma promise_set_value_empty w this p val :
  objs w !! this = Some p → prom_state p = None →
  MyPromise.set_value this val w = (Throws promise_no_state, w).
Proof. intros Hp Hpl. unfold MyPromise.set_value. unfold_monad. by rewrite Hp, Hpl. Qed.

Lemma promise_set_exception_empty w this p ptr :
  objs w !! this = Some p → prom_state p = None →
  MyPromise.set_exception this ptr w = (Throws promise_no_state, w).
Proof.
  intros Hp Hpl. unfold MyPromise.set_exception. unfold_monad. by rewrite Hp, Hpl.
Qed.

(** The destructor, case by case. *)
Lemma dtor_abandoned w this p l s :
  objs w !! this = Some p → prom_state p = Some l → heap w !! l = Some s →
  SharedState.ready_ s = false → prom_future_retrieved p = true →
  MyPromise.dtor this w
  = (Returns tt,
     {| heap := <[l := (SharedState.set_exception (Some broken_promise) s).2]> (heap w);
        objs := delete this (objs w) |}).
Proof.
  intros Hp Hpl Hl Hr Hfr. unfold MyPromise.dtor, bind at 1, load. rewrite Hp, Hpl.
  unfold bind. rewrite (call_state_reader w l s) by done. simpl.
  rewrite Hr, Hfr. simpl. unfold try_catch_all.
  rewrite (call_state_live w l s) by done.
  unfold SharedState.set_exception. by rewrite Hr.
Qed.

Lemma dtor_quiet w this p l s :
  objs w !! this = Some p → prom_state p = Some l → heap w !! l = Some s →
  SharedState.ready_ s = true ∨ prom_future_retrieved p = false →
  MyPromise.dtor this w
  = (Returns tt, {| heap := heap w; objs := delete this (objs w) |}).
Proof.
  intros Hp Hpl Hl Hor. unfold MyPromise.dtor, bind at 1, load. rewrite Hp, Hpl.
  unfold bind. rewrite (call_state_reader w l s) by done. simpl.
  by destruct Hor as [-> | ->]; [|rewrite andb_false_r].
Qed.

Lemma dtor_empty w this p :
  objs w !! this = Some p → prom_state p = None →
  MyPromise.dtor this w
  = (Returns tt, {| heap := heap w; objs := delete this (objs w) |}).
Proof.
  intros Hp Hpl. unfold MyPromise.dtor, bind, load. by rewrite Hp, Hpl.
Qed.

(** Abandonment, for the calls entered afterwards.  A promise object that
    holds a shared state which is not ready is destroyed; a future [f] is
    bound to the same state, so a [get] entered before finds the predicate
    false.  If [future_retrieved_] is set, the destructor installs the
    [runtime_error] "Broken promise" in the state and makes it ready: a
    [get] on [f] entered after the destructor, or after any later calls
    [cs] of the client, throws that error.  If the flag is not set, the
    destructor leaves the heap of shared states unchanged. *)
Lemma abandoned_promise_later_gets w this p l s f cs :
  objs w !! this = Some p →
  prom_state p = Some l →
  heap w !! l = Some s →
  SharedState.ready_ s = false →
  MyFuture.state_ f = Some l →
  let w' := (MyPromise.dtor this w).2 in
  (MyPromise.dtor this w).1 = Returns tt
  ∧ MyFuture.get f w = (Blocks, w)
  ∧ if prom_future_retrieved p then
      heap w' !! l
      = Some {| SharedState.value_ := SharedState.value_ s;
                SharedState.exception_ptr_ := Some broken_promise;
                SharedState.ready_ := true |}
      ∧ MyFuture.get f w' = (Throws broken_promise, w')
      ∧ MyFuture.get f (Client.run cs w')
        = (Throws broken_promise, Client.run cs w')
    else
      heap w' = heap w ∧ MyFuture.get f w' = (Blocks, w').
Proof.
  intros Hp Hpl Hl Hr Hf w'.
  assert (MyFuture.get f w = (Blocks, w)) as Hblocked.
  { rewrite (future_get_live w f l s) by done.
    unfold SharedState.get_value. by rewrite Hr. }
  destruct (prom_future_retrieved p) eqn:Hfr.
  - subst w'. rewrite (dtor_abandoned w this p l s) by done. simpl.
    set (s' := (SharedState.set_exception (Some broken_promise) s).2).
    set (w' := {| heap := _; objs := _ |}).
    assert (s' = {| SharedState.value_ := SharedState.value_ s;
                    SharedState.exception_ptr_ := Some broken_promise;
                    SharedState.ready_ := true |}) as Hs'.
    { unfold s', SharedState.set_exception. by rewrite Hr. }
    assert (heap w' !! l = Some s') as Hl' by apply lookup_insert_eq.
    split_and!; try done.
    + by rewrite <-Hs'.
    + rewrite (future_get_live w' f l s') by done. by rewrite Hs'.
    + rewrite (future_get_live (Client.run cs w') f l s'); [by rewrite Hs'|done|].
      apply ready_stable; [done | by rewrite Hs'].
  - subst w'. rewrite (dtor_quiet w this p l s) by auto. simpl.
    split_and!; try done.
    rewrite (future_get_live _ f l s) by done.
    unfold SharedState.get_value. by rewrite Hr.
Qed.

(** C9.  The null pointer.  [set_exception] with a null pointer on a new
    shared state returns normally and sets [ready_], with [value_] empty
    and [exception_ptr_] null, and [get_value] then throws the
    internal-error [runtime_error].  The same holds through the handles:
    construct a promise, take its future, pass the null pointer to
    [MyPromise::set_exception], and [get] on the future throws the
    internal error. *)
Theorem C9_null_exception_reaches_internal_error this :
  let s := (SharedState.set_exception None (@SharedState.init T E)).2 in
  (SharedState.set_exception None (@SharedState.init T E)).1 = Returns tt
  ∧ SharedState.ready_ s = true
  ∧ SharedState.value_ s = None
  ∧ SharedState.exception_ptr_ s = None
  ∧ SharedState.get_value s = (Throws internal_error, s)
  ∧ ∃ f w2 w3,
      MyPromise.get_future this (MyPromise.ctor this (@init_world T E)).2
      = (Returns f, w2)
      ∧ MyPromise.set_exception this None w2 = (Returns tt, w3)
      ∧ MyFuture.get f w3 = (Throws internal_error, w3).
Proof.
  intros s0. split_and!; [done..|]. clear s0.
  set (l := fresh (dom (heap (@init_world T E)))).
  set (w2 := {| heap := <[l := SharedState.init]> (heap (@init_world T E));
                objs := <[this := mk_promise (Some l) true]> (objs (@init_world T E)) |}).
  set (s := (SharedState.set_exception None (@SharedState.init T E)).2).
  exists (MyFuture.mk (Some l)), w2,
    {| heap := <[l := s]> (heap w2); objs := objs w2 |}.
  split_and!.
  - rewrite ctor_world.
    erewrite get_future_first; [| apply lookup_insert_eq | done | done].
    unfold w2. simpl. by rewrite insert_insert_eq.
  - by rewrite (promise_set_exception_live w2 this (mk_promise (Some l) true) l
                  SharedState.init) by (done || apply lookup_insert_eq).
  - by rewrite (future_get_live _ _ l s) by (done || apply lookup_insert_eq).
Qed.

(** The two move operations: the destination takes over the data members
    of the source, the source is left with a null pointer and the flag
    set.  (For the constructor the destination is storage of its own, so
    [dst ≠ src] holds for it as well.) *)
Lemma move_ctor_world w dst src p :
  objs w !! src = Some p →
  MyPromise.move_ctor dst src w
  = (Returns tt,
     {| heap := heap w;
        objs := <[src := mk_promise None true]> (<[dst := p]> (objs w)) |}).
Proof.
  intros Hp. unfold MyPromise.move_ctor. unfold_monad. rewrite Hp. simpl.
  destruct p as [o b]. simpl.
  destruct (decide (dst = src)) as [->|Hne].
  - rewrite !lookup_insert_eq. simpl. rewrite !lookup_insert_eq.
    by rewrite !insert_insert_eq.
  - rewrite lookup_insert_ne, Hp by done. simpl.
    rewrite lookup_insert_eq. by rewrite insert_insert_eq.
Qed.

Lemma move_assign_world w dst src p q :
  objs w !! src = Some p → objs w !! dst = Some q → dst ≠ src →
  MyPromise.move_assign dst src w
  = (Returns tt,
     {| heap := heap w;
        objs := <[src := mk_promise None true]> (<[dst := p]> (objs w)) |}).
Proof.
  intros Hp Hq Hne. unfold MyPromise.move_assign.
  rewrite decide_True by done. unfold_monad. rewrite Hp. simpl.
  destruct p as [o b], q as [o' b']. simpl.
  repeat (progress (simpl; rewrite ?Hp, ?Hq, ?lookup_insert_eq,
                    ?(lookup_insert_ne _ src dst), ?(lookup_insert_ne _ dst src) by done)).
  f_equal. f_equal. apply map_eq. intros i.
  destruct (decide (i = src)) as [->|?];
    [|destruct (decide (i = dst)) as [->|?]]; by simplify_map_eq.
Qed.

Lemma move_assign_self w this p :
  objs w !! this = Some p →
  MyPromise.move_assign this this w = (Returns tt, w).
Proof.
  intros Hp. unfold MyPromise.move_assign.
  rewrite decide_False by (by intros ?). unfold_monad. by rewrite Hp.
Qed.


(** [future_retrieved_], once set, stays set for as long as the object is
    neither destroyed nor constructed or assigned anew. *)
Lemma preserves_ret {A} (I : world T E → Prop) (a : A) : preserves I (ret a).
Proof. by intros w. Qed.

Lemma preserves_throw {A} (I : world T E → Prop) e :
  preserves I (throw (A:=A) e).
Proof. by intros w. Qed.

Lemma preserves_load (I : world T E → Prop) a : preserves I (load a).
Proof. intros w. unfold load. by case_match. Qed.

Lemma preserves_bind {A B} (I : world T E → Prop) (m : M T E A) (k : A → M T E B) :
  preserves I m → (∀ a, preserves I (k a)) → preserves I (bind m k).
Proof.
  intros Hm Hk w Hw. unfold bind. specialize (Hm w Hw).
  destruct (m w) as [[a|e| |] w']; simpl in *; try done. by apply Hk.
Qed.

Lemma preserves_try_catch_all (I : world T E → Prop) m :
  preserves I m → preserves I (try_catch_all m).
Proof.
  intros Hm w Hw. unfold try_catch_all. specialize (Hm w Hw).
  by destruct (m w) as [[a|e| |] w'].
Qed.









(** Calls that do not touch an object leave its data members alone. *)
Lemma untouched_update this p0 a g :
  a ≠ this →
  preserves (T:=T) (E:=E) (λ w, objs w !! this = Some p0) (update a g).
Proof.
  intros Hne w Hw. unfold update. destruct (objs w !! a); [|done].
  simpl. by rewrite lookup_insert_ne.
Qed.

Lemma untouched_emplace this p0 a q :
  a ≠ this →
  preserves (T:=T) (E:=E) (λ w, objs w !! this = Some p0) (emplace a q).
Proof. intros Hne w Hw. simpl. by rewrite lookup_insert_ne. Qed.

Lemma untouched_release this p0 a :
  a ≠ this →
  preserves (T:=T) (E:=E) (λ w, objs w !! this = Some p0) (release a).
Proof. intros Hne w Hw. simpl. by rewrite lookup_delete_ne. Qed.

Lemma untouched_call_state {A} this p0 l
    (g : SharedState.t T E → outcome E A * SharedState.t T E) :
  preserves (λ w, objs w !! this = Some p0) (call_state l g).
Proof.
  intros w Hw. unfold call_state. destruct (heap w !! l); [|done].
  by destruct (g _).
Qed.

Lemma untouched_make_shared this p0 :
  preserves (T:=T) (E:=E) (λ w, objs w !! this = Some p0) make_shared.
Proof. by intros w. Qed.

Local Ltac keep_untouched :=
  repeat first
    [ apply preserves_bind; [|intros ?]
    | apply preserves_ret | apply preserves_throw | apply preserves_load
    | apply preserves_try_catch_all
    | apply untouched_call_state | apply untouched_make_shared
    | by apply untouched_update
    | by apply untouched_emplace
    | by apply untouched_release
    | case_match ].

Lemma untouched_exec (c : Client.call T E) w this p0 :
  Client.touches this c = false →
  objs w !! this = Some p0 → objs (Client.exec c w) !! this = Some p0.
Proof.
  intros Hc. revert w.
  destruct c as [a|a b|a b|a|a val|a ptr|a|f|f|f|f]; simpl in *;
    try apply orb_false_elim in Hc as [Hc Hc'];
    try apply bool_decide_eq_false in Hc;
    try apply bool_decide_eq_false in Hc'.
  - change (preserves (λ w, objs w !! this = Some p0) (MyPromise.ctor (T:=T) (E:=E) a)).
    unfold MyPromise.ctor. keep_untouched.
  - change (preserves (λ w, objs w !! this = Some p0)
              (MyPromise.move_ctor (T:=T) (E:=E) a b)).
    unfold MyPromise.move_ctor. keep_untouched.
  - change (preserves (λ w, objs w !! this = Some p0)
              (MyPromise.move_assign (T:=T) (E:=E) a b)).
    unfold MyPromise.move_assign. keep_untouched.
  - change (preserves (λ w, objs w !! this = Some p0)
              (MyPromise.get_future (T:=T) (E:=E) a)).
    unfold MyPromise.get_future. keep_untouched.
  - change (preserves (λ w, objs w !! this = Some p0)
              (MyPromise.set_value (E:=E) a val)).
    unfold MyPromise.set_value. keep_untouched.
  - change (preserves (λ w, objs w !! this = Some p0)
              (MyPromise.set_exception (T:=T) a ptr)).
    unfold MyPromise.set_exception. keep_untouched.
  - change (preserves (λ w, objs w !! this = Some p0)
              (MyPromise.dtor (T:=T) (E:=E) a)).
    unfold MyPromise.dtor. keep_untouched.
  - intros w Hw. by rewrite future_get_world.
  - intros w Hw. by rewrite future_is_ready_world.
  - intros w Hw. by rewrite future_wait_world.
  - done.
Qed.

(** The first call: a promise object that was constructed and since then
    only written through (whatever else the client did to other objects)
    holds its state and has [future_retrieved_] clear. *)
Lemma first_call_precondition (cs : list (Client.call T E)) w0 this :
  Forall (λ c, Client.touches this c = false) cs →
  let w := Client.run cs (MyPromise.ctor this w0).2 in
  ∃ l, objs w !! this = Some (mk_promise (Some l) false).
Proof.
  intros Hcs. rewrite ctor_world. cbn [snd].
  set (w1 := {| heap := _; objs := _ |}).
  exists (fresh (dom (heap w0))).
  assert (objs w1 !! this = Some (mk_promise (Some (fresh (dom (heap w0)))) false))
    as Hw1 by apply lookup_insert_eq.
  revert Hw1. generalize w1. clear w1.
  induction Hcs as [|c cs Hc _ IH]; intros w1 Hw1; [done|].
  rewrite client_run_cons. by apply IH, untouched_exec.
Qed.


(** Member functions called on an address without a live object, or
    through a pointer without a record, have no defined behaviour. *)
Lemma dead_object (m : Client.method T E) w a :
  objs w !! a = None → Client.invoke m a w = (Undefined, w).
Proof.
  intros Ha. destruct m; unfold Client.invoke, MyPromise.get_future,
    MyPromise.set_value, MyPromise.set_exception, MyPromise.dtor;
    unfold_monad; by rewrite Ha.
Qed.

(** What an invocation does, by the data members it finds. *)
Lemma invoke_get_future w a :
  Client.invoke (T:=T) (E:=E) Client.CallGetFuture a w
  = match objs w !! a with
    | None => (Undefined, w)
    | Some p =>
        match prom_state p, prom_future_retrieved p with
        | Some l, false =>
            (Returns (Some (MyFuture.mk (Some l))),
             {| heap := heap w; objs := <[a := mk_promise (Some l) true]> (objs w) |})
        | _, _ => (Throws already_retrieved_or_no_state, w)
        end
    end.
Proof.
  unfold Client.invoke, bind.
  destruct (objs w !! a) as [p|] eqn:Hp.
  - destruct (prom_state p) as [l|] eqn:Hpl;
      [destruct (prom_future_retrieved p) eqn:Hfr|].
    + rewrite (get_future_refused w a p); auto.
    + by rewrite (get_future_first w a p l).
    + rewrite (get_future_refused w a p); auto.
  - unfold MyPromise.get_future. unfold_monad. by rewrite Hp.
Qed.

Lemma invoke_set_value w a val :
  Client.invoke (E:=E) (Client.CallSetValue val) a w
  = match objs w !! a with
    | None => (Undefined, w)
    | Some p =>
        match prom_state p with
        | None => (Throws promise_no_state, w)
        | Some l =>
            match heap w !! l with
            | None => (Undefined, w)
            | Some s =>
                if SharedState.ready_ s then
                  (Throws already_satisfied,
                   {| heap := <[l := s]> (heap w); objs := objs w |})
                else
                  (Returns None,
                   {| heap := <[l := (SharedState.set_value val s).2]> (heap w);
                      objs := objs w |})
            end
        end
    end.
Proof.
  unfold Client.invoke, MyPromise.set_value. unfold_monad.
  destruct (objs w !! a) as [p|]; [|done].
  destruct (prom_state p) as [l|]; [|done].
  destruct (heap w !! l) as [s|]; [|done].
  unfold SharedState.set_value. by destruct (SharedState.ready_ s).
Qed.

Lemma invoke_set_exception w a ptr :
  Client.invoke (T:=T) (Client.CallSetException ptr) a w
  = match objs w !! a with
    | None => (Undefined, w)
    | Some p =>
        match prom_state p with
        | None => (Throws promise_no_state, w)
        | Some l =>
            match heap w !! l with
            | None => (Undefined, w)
            | Some s =>
                if SharedState.ready_ s then
                  (Throws already_satisfied,
                   {| heap := <[l := s]> (heap w); objs := objs w |})
                else
                  (Returns None,
                   {| heap := <[l := (SharedState.set_exception ptr s).2]> (heap w);
                      objs := objs w |})
            end
        end
    end.
Proof.
  unfold Client.invoke, MyPromise.set_exception. unfold_monad.
  destruct (objs w !! a) as [p|]; [|done].
  destruct (prom_state p) as [l|]; [|done].
  destruct (heap w !! l) as [s|]; [|done].
  unfold SharedState.set_exception. by destruct (SharedState.ready_ s).
Qed.

Lemma invoke_destroy w a :
  Client.invoke (T:=T) (E:=E) Client.CallDestroy a w
  = match objs w !! a with
    | None => (Undefined, w)
    | Some p =>
        match prom_state p with
        | None => (Returns None, {| heap := heap w; objs := delete a (objs w) |})
        | Some l =>
            match heap w !! l with
            | None => (Undefined, w)
            | Some s =>
                if negb (SharedState.ready_ s) && prom_future_retrieved p then
                  (Returns None,
                   {| heap := <[l := (SharedState.set_exception
                                        (Some broken_promise) s).2]> (heap w);
                      objs := delete a (objs w) |})
                else
                  (Returns None, {| heap := heap w; objs := delete a (objs w) |})
            end
        end
    end.
Proof.
  unfold Client.invoke, bind at 1.
  destruct (objs w !! a) as [p|] eqn:Hp.
  - destruct (prom_state p) as [l|] eqn:Hpl.
    + destruct (heap w !! l) as [s|] eqn:Hl.
      * destruct (SharedState.ready_ s) eqn:Hr; simpl.
        { by rewrite (dtor_quiet w a p l s) by auto. }
        destruct (prom_future_retrieved p) eqn:Hfr.
        { by rewrite (dtor_abandoned w a p l s). }
        by rewrite (dtor_quiet w a p l s) by auto.
      * unfold MyPromise.dtor. unfold_monad. by rewrite Hp, Hpl, Hl.
    + by rewrite (dtor_empty w a p).
  - unfold MyPromise.dtor. unfold_monad. by rewrite Hp.
Qed.





(** ** No dangling pointers

    [Undefined] is the outcome of a call on an address without a live
    object or through a pointer without a record.  Shared pointers rule the
    second out: in every world a client can reach, each promise object
    points at a record of the heap, so member functions called on a live
    promise object have a defined outcome. *)

Lemma no_dangling_heap_insert w l s :
  no_dangling w →
  no_dangling {| heap := <[l := s]> (heap w); objs := objs w |}.
Proof.
  intros Hw a p l' Hp Hpl. simpl in *.
  destruct (decide (l = l')) as [->|?].
  - rewrite lookup_insert_eq. by eexists.
  - rewrite lookup_insert_ne by done. by apply (Hw a p).
Qed.

Lemma no_dangling_objs_insert w a p :
  no_dangling w →
  (∀ l, prom_state p = Some l → is_Some (heap w !! l)) →
  no_dangling {| heap := heap w; objs := <[a := p]> (objs w) |}.
Proof.
  intros Hw Hp a' p' l' Hp' Hpl'. simpl in *.
  destruct (decide (a = a')) as [->|?].
  - rewrite lookup_insert_eq in Hp'. injection Hp' as <-. by apply Hp.
  - rewrite lookup_insert_ne in Hp' by done. by apply (Hw a' p').
Qed.

Lemma no_dangling_objs_delete w a :
  no_dangling w →
  no_dangling {| heap := heap w; objs := delete a (objs w) |}.
Proof.
  intros Hw a' p' l' Hp' Hpl'. simpl in *.
  apply lookup_delete_Some in Hp' as [_ Hp']. by apply (Hw a' p').
Qed.

(** The world an invocation leaves is the world its member function
    leaves. *)
Lemma invoke_world (m : Client.method T E) a w :
  (Client.invoke m a w).2
  = match m with
    | Client.CallGetFuture => (MyPromise.get_future a w).2
    | Client.CallSetValue value => (MyPromise.set_value a value w).2
    | Client.CallSetException p => (MyPromise.set_exception a p w).2
    | Client.CallDestroy => (MyPromise.dtor a w).2
    end.
Proof.
  destruct m as [|val|ptr|]; unfold Client.invoke, bind, ret.
  - by destruct (MyPromise.get_future a w) as [[] ?].
  - by destruct (MyPromise.set_value a val w) as [[] ?].
  - by destruct (MyPromise.set_exception a ptr w) as [[] ?].
  - by destruct (MyPromise.dtor a w) as [[] ?].
Qed.

Lemma no_dangling_invoke (m : Client.method T E) a w :
  no_dangling w → no_dangling (Client.invoke m a w).2.
Proof.
  intros Hw.
  destruct m as [|val|ptr|];
    rewrite ?invoke_get_future, ?invoke_set_value, ?invoke_set_exception,
      ?invoke_destroy;
    repeat case_match; simpl; try done;
    auto using no_dangling_heap_insert, no_dangling_objs_delete.
  - apply no_dangling_objs_insert; [done|]. simpl. intros l [= <-].
    by eapply Hw.
  - by apply (no_dangling_objs_delete {| heap := _; objs := _ |}),
      no_dangling_heap_insert.
Qed.

Lemma no_dangling_ctor a w : no_dangling w → no_dangling (MyPromise.ctor a w).2.
Proof.
  intros Hw. rewrite ctor_world.
  set (l := fresh (dom (heap w))).
  pose proof (no_dangling_heap_insert w l SharedState.init Hw) as Hw1.
  apply (no_dangling_objs_insert _ a (mk_promise (Some l) false)) in Hw1; [done|].
  intros l' [= <-]. simpl. rewrite lookup_insert_eq. by eexists.
Qed.

Lemma no_dangling_move_ctor a b w :
  no_dangling w → no_dangling (MyPromise.move_ctor a b w).2.
Proof.
  intros Hw. destruct (objs w !! b) as [p|] eqn:Hp.
  - rewrite (move_ctor_world w a b p) by done. simpl.
    apply (no_dangling_objs_insert {| heap := _; objs := _ |}); [|done].
    apply no_dangling_objs_insert; [done|]. intros l Hl. by apply (Hw b p).
  - unfold MyPromise.move_ctor. unfold_monad. by rewrite Hp.
Qed.

Lemma no_dangling_move_assign a b w :
  no_dangling w → no_dangling (MyPromise.move_assign a b w).2.
Proof.
  intros Hw. destruct (decide (a = b)) as [->|Hne].
  { unfold MyPromise.move_assign. rewrite decide_False by (by intros ?).
    unfold_monad. by destruct (objs w !! b). }
  destruct (objs w !! b) as [p|] eqn:Hp.
  - destruct (objs w !! a) as [q|] eqn:Hq.
    + rewrite (move_assign_world w a b p q) by done. simpl.
      apply (no_dangling_objs_insert {| heap := _; objs := _ |}); [|done].
      apply no_dangling_objs_insert; [done|]. intros l Hl. by apply (Hw b p).
    + unfold MyPromise.move_assign. rewrite decide_True by done.
      unfold_monad.
      repeat (progress (simpl; rewrite ?Hp, ?Hq, ?(lookup_insert_ne _ b a) by done)).
      by apply no_dangling_objs_insert.
  - unfold MyPromise.move_assign. rewrite decide_True by done.
    unfold_monad. by rewrite Hp.
Qed.

Lemma no_dangling_exec (c : Client.call T E) w :
  no_dangling w → no_dangling (Client.exec c w).
Proof.
  intros Hw. destruct c as [a|a b|a b|a|a val|a ptr|a|f|f|f|f]; simpl.
  - by apply no_dangling_ctor.
  - by apply no_dangling_move_ctor.
  - by apply no_dangling_move_assign.
  - rewrite <-(invoke_world Client.CallGetFuture). by apply no_dangling_invoke.
  - rewrite <-(invoke_world (Client.CallSetValue val)). by apply no_dangling_invoke.
  - rewrite <-(invoke_world (Client.CallSetException ptr)). by apply no_dangling_invoke.
  - rewrite <-(invoke_world Client.CallDestroy). by apply no_dangling_invoke.
  - by rewrite future_get_world.
  - by rewrite future_is_ready_world.
  - by rewrite future_wait_world.
  - done.
Qed.

Lemma reachable_no_dangling w : Client.reachable w → no_dangling w.
Proof.
  intros [cs <-].
  cut (∀ w0 : world T E, no_dangling w0 → no_dangling (Client.run cs w0)).
  { intros Hcut. apply Hcut. intros a p l Hp. simpl in Hp.
    by rewrite lookup_empty in Hp. }
  induction cs as [|c cs IH]; intros w0 Hw0; [done|].
  rewrite client_run_cons. by apply IH, no_dangling_exec.
Qed.

(** In a reachable world every member function of a live promise object has
    a defined outcome. *)
Lemma live_promise_defined (m : Client.method T E) w a p :
  Client.reachable w → objs w !! a = Some p →
  (Client.invoke m a w).1 ≠ Undefined.
Proof.
  intros Hw Hp. apply reachable_no_dangling in Hw.
  assert (∀ l, prom_state p = Some l → is_Some (heap w !! l)) as Hl
    by (intros l; apply (Hw a p l Hp)).
  destruct m as [|val|ptr|];
    rewrite ?invoke_get_future, ?invoke_set_value, ?invoke_set_exception,
      ?invoke_destroy, Hp;
    destruct (prom_state p) as [l|]; try done;
    try (destruct (Hl l eq_refl) as [s ->]);
    repeat case_match; done.
Qed.
End HandleFacts.

(** * The scenarios of the test plan, run on the model *)

Section Scenarios.
Import SharedState.

(** Double write: [set_value(1)], then [set_value(2)]; the reader gets 1. *)
Lemma C1_double_write_scenario :
  let s1 := (write (E:=string) (write_value 1%Z) init).2 in
  let s2 := (write (write_value 2%Z) (run [GetValue] s1)).2 in
  (write (E:=string) (write_value 1%Z) init).1 = Returns tt
  ∧ write (write_value 2%Z) (run [GetValue] s1) = (Throws already_satisfied, s1)
  ∧ s2 = s1
  ∧ get_value s2 = get_value s1
  ∧ get_value s2 = (Returns 1%Z, s2).
Proof.
  apply (C1_at_most_once_write [IsReady; Wait] [GetValue] init
           (write_value 1%Z) (write_value 2%Z)); reflexivity.
Defined.

Lemma C8_inconsistent_state_scenario :
  get_value (mk (T:=Z) (E:=string) None None true)
  = (Throws internal_error, mk None None true).
Proof. apply C8_get_value_internal_error; reflexivity. Defined.
End Scenarios.

Section HandleScenarios.
(** Abandonment: the promise of [demo_world] is destroyed unwritten. *)
Lemma abandonment_later_gets_scenario :
  let cs := [Client.Construct 1; Client.SetValue 1 7%Z] in
  let w' := (MyPromise.dtor 1 demo_world).2 in
  let w'' := (MyPromise.dtor 1 two_promises).2 in
  ((MyPromise.dtor 1 demo_world).1 = Returns tt
   ∧ MyFuture.get demo_future demo_world = (Blocks, demo_world)
   ∧ heap w' !! 0 = Some (SharedState.mk None (Some broken_promise) true)
   ∧ MyFuture.get demo_future w' = (Throws broken_promise, w')
   ∧ MyFuture.get demo_future (Client.run cs w')
     = (Throws broken_promise, Client.run cs w'))
  ∧ ((MyPromise.dtor 1 two_promises).1 = Returns tt
     ∧ MyFuture.get demo_future two_promises = (Blocks, two_promises)
     ∧ heap w'' = heap two_promises
     ∧ MyFuture.get demo_future w'' = (Blocks, w'')).
Proof.
  split.
  - apply (abandoned_promise_later_gets demo_world 1 (mk_promise (Some 0) true) 0
             SharedState.init demo_future
             [Client.Construct 1; Client.SetValue 1 7%Z]); reflexivity.
  - apply (abandoned_promise_later_gets two_promises 1 (mk_promise (Some 0) false) 0
             SharedState.init demo_future []); reflexivity.
Defined.

(** Failure propagation: [set_exception] of "boom", then [get]. *)
Lemma C4_failure_propagation_scenario :
  let w' := (MyPromise.set_exception 1 (Some (thrown "boom")) demo_world).2 in
  MyFuture.get demo_future w' = (Throws (thrown "boom"), w')
  ∧ MyFuture.get demo_future (MyFuture.get demo_future w').2
    = (Throws (thrown "boom"), w').
Proof.
  apply (C4_failure_propagates_verbatim demo_world 1 (mk_promise (Some 0) true)
           demo_future (thrown "boom")); reflexivity.
Defined.



(** Happy path: [set_value(42)], then [get] twice. *)
Lemma C7_read_twice_scenario :
  let w' := (MyPromise.set_value 1 42%Z demo_world).2 in
  let w1 := (MyFuture.get demo_future w').2 in
  let w2 := (MyFuture.get demo_future w1).2 in
  (MyFuture.get demo_future w').1 = Returns 42%Z
  ∧ (MyFuture.get demo_future w1).1 = Returns 42%Z
  ∧ w1 = w' ∧ w2 = w'
  ∧ MyFuture.is_ready demo_future w2 = (Returns true, w2).
Proof.
  apply (C7_get_twice_same_value demo_calls demo_world 1
           (mk_promise (Some 0) true) demo_future 42%Z); reflexivity.
Defined.
End HandleScenarios.


(** * Further properties of SharedState<T> *)

Section SharedStateProvenance.
Context {T E : Type}.
Implicit Types (s : SharedState.t T E) (o : SharedState.op T E)
  (os : list (SharedState.op T E)).
Import SharedState.

(** A pending record that was written is ready; a ready record is kept. *)
Lemma step_cases o s :
  step o s = s
  ∨ (ready_ s = false
     ∧ ((∃ val, o = SetValue val ∧ step o s = mk (Some val) (exception_ptr_ s) true)
        ∨ (∃ p, o = SetException p ∧ step o s = mk (value_ s) p true))).
Proof.
  destruct o as [val|p| | |]; simpl; auto using get_value_same, wait_same;
    unfold set_value, set_exception; destruct (ready_ s) eqn:Hr; auto;
    right; split; eauto.
Qed.

Lemma value_provenance os s val :
  value_ (run os s) = Some val → value_ s = Some val ∨ SetValue val ∈ os.
Proof.
  revert s. induction os as [|o os IH]; intros s Hv; [by left|].
  rewrite run_cons in Hv. destruct (IH _ Hv) as [Hs|Hin].
  - destruct (step_cases o s) as [Heq|(_ & [(val' & -> & Heq)|(p & -> & Heq)])];
      rewrite Heq in Hs; simpl in Hs; auto.
    right. injection Hs as ->. apply list_elem_of_here.
  - right. by apply list_elem_of_further.
Qed.

Lemma exception_provenance os s e :
  exception_ptr_ (run os s) = Some e →
  exception_ptr_ s = Some e ∨ SetException (Some e) ∈ os.
Proof.
  revert s. induction os as [|o os IH]; intros s Hv; [by left|].
  rewrite run_cons in Hv. destruct (IH _ Hv) as [Hs|Hin].
  - destruct (step_cases o s) as [Heq|(_ & [(val' & -> & Heq)|(p & -> & Heq)])];
      rewrite Heq in Hs; simpl in Hs; auto.
    right. rewrite Hs. apply list_elem_of_here.
  - right. by apply list_elem_of_further.
Qed.

Lemma null_provenance os s :
  ready_ (run os s) = true → value_ (run os s) = None →
  exception_ptr_ (run os s) = None →
  ready_ s = true ∨ SetException None ∈ os.
Proof.
  revert s. induction os as [|o os IH]; intros s Hr Hv He; [by left|].
  rewrite run_cons in *. destruct (IH _ Hr Hv He) as [Hs|Hin].
  - destruct (step_cases o s) as [Heq|(Hp & [(val' & -> & Heq)|(p & -> & Heq)])].
    + left. by rewrite <-Heq.
    + rewrite run_ready in Hv by done. by rewrite Heq in Hv.
    + rewrite run_ready in He by done. rewrite Heq in He. simpl in He.
      subst p. right. apply list_elem_of_here.
  - right. by apply list_elem_of_further.
Qed.

(** The two outcome members exclude each other. *)
Lemma never_both os :
  let s := run os (@init T E) in
  ¬ (is_Some (value_ s) ∧ is_Some (exception_ptr_ s)).
Proof.
  intros s [[val Hv] [e He]]. subst s.
  destruct (ready_ (run os (@init T E))) eqn:Hr.
  - clear Hr. revert Hv He.
    cut (∀ s0 : t T E, (ready_ s0 = false → s0 = init) →
           ¬ (is_Some (value_ s0) ∧ is_Some (exception_ptr_ s0)) →
           value_ (run os s0) = Some val → exception_ptr_ (run os s0) = Some e → False).
    { intros Hcut. apply Hcut; [done|]. by intros [[? [=]] _]. }
    induction os as [|o os IH]; intros s0 Hpend Hnot Hv He.
    { change (run [] s0) with s0 in *. apply Hnot. rewrite Hv, He. by split. }
    rewrite run_cons in *.
    destruct (step_cases o s0) as [Heq|(Hp & [(val' & -> & Heq)|(p & -> & Heq)])].
    + rewrite Heq in *. by apply (IH s0).
    + rewrite Heq, (Hpend Hp), run_ready in He by done. done.
    + rewrite Heq, (Hpend Hp), run_ready in Hv by done. done.
  - apply run_init_pending in Hr. rewrite Hr in Hv. done.
Qed.
End SharedStateProvenance.

(** * Further properties of the two handles *)

Section ReaderFacts.
Context {T E : Type}.
Implicit Types (w : world T E) (s : SharedState.t T E) (f : MyFuture.t)
  (cs : list (Client.call T E)).

Lemma future_wait_live w f l s :
  MyFuture.state_ f = Some l → heap w !! l = Some s →
  MyFuture.wait f w = ((SharedState.wait s).1, w).
Proof.
  intros Hf Hl. unfold MyFuture.wait. rewrite Hf.
  by rewrite (call_state_reader w l s) by auto using wait_same.
Qed.

(** What the three readers find behind a future: no pointer, a pointer
    without record, or a record. *)
Lemma future_cases w f :
  (MyFuture.state_ f = None)
  ∨ (∃ l, MyFuture.state_ f = Some l ∧ heap w !! l = None)
  ∨ (∃ l s, MyFuture.state_ f = Some l ∧ heap w !! l = Some s).
Proof.
  destruct (MyFuture.state_ f) as [l|]; [|by left]. right.
  destruct (heap w !! l) as [s|] eqn:Hl; eauto.
Qed.

Lemma future_dangling w f l :
  MyFuture.state_ f = Some l → heap w !! l = None →
  MyFuture.get f w = (Undefined, w)
  ∧ MyFuture.wait f w = (Undefined, w)
  ∧ MyFuture.is_ready f w = (Undefined, w).
Proof.
  intros Hf Hl. unfold MyFuture.get, MyFuture.wait, MyFuture.is_ready, bind, call_state.
  by rewrite Hf, Hl.
Qed.

Lemma future_empty w f :
  MyFuture.state_ f = None →
  MyFuture.get f w = (Throws future_no_state, w)
  ∧ MyFuture.wait f w = (Throws future_no_state, w)
  ∧ MyFuture.is_ready f w = (Returns false, w).
Proof.
  intros Hf. unfold MyFuture.get, MyFuture.wait, MyFuture.is_ready. by rewrite Hf.
Qed.

(** X1.  [wait] and [get] agree on blocking.  Whatever the future and the
    world: when [wait] returns, it has changed nothing, [is_ready] answers
    true and [get] does not block; when [wait] blocks, so does [get], and
    [is_ready] answers false; when [wait] throws, it throws "Future has no
    associated state" and so does [get]. *)
Theorem X1_wait_agrees_with_get f w :
  match (MyFuture.wait f w).1 with
  | Returns _ =>
      MyFuture.wait f w = (Returns tt, w)
      ∧ MyFuture.is_ready f w = (Returns true, w)
      ∧ ((∃ val, MyFuture.get f w = (Returns val, w))
         ∨ (∃ e, MyFuture.get f w = (Throws e, w)))
  | Blocks =>
      MyFuture.get f w = (Blocks, w)
      ∧ MyFuture.is_ready f w = (Returns false, w)
  | Throws e =>
      e = future_no_state
      ∧ MyFuture.get f w = (Throws future_no_state, w)
  | Undefined => MyFuture.get f w = (Undefined, w)
  end.
Proof.
  destruct (future_cases w f) as [Hf|[(l & Hf & Hl)|(l & s & Hf & Hl)]].
  - destruct (future_empty w f Hf) as (Hg & -> & _). by simpl.
  - destruct (future_dangling w f l Hf Hl) as (Hg & -> & _). by simpl.
  - rewrite (future_wait_live w f l s), (future_get_live w f l s),
      (future_is_ready_live w f l s) by done.
    unfold SharedState.wait, SharedState.get_value.
    destruct (SharedState.ready_ s); simpl; [|done].
    split_and!; try done.
    destruct (SharedState.exception_ptr_ s) as [e|]; [by right; eexists|].
    destruct (SharedState.value_ s) as [val|]; [left|right]; by eexists.
Qed.

(** X2.  Ready is permanent for the poller.  Once [is_ready] has answered
    true on a future, it answers true after any further calls of the client
    (writes, moves, destructions, constructions), and [wait] returns at
    once. *)
Theorem X2_is_ready_true_is_permanent f w cs :
  MyFuture.is_ready f w = (Returns true, w) →
  let w' := Client.run cs w in
  MyFuture.is_ready f w' = (Returns true, w')
  ∧ MyFuture.wait f w' = (Returns tt, w').
Proof.
  intros Hr w'.
  destruct (future_cases w f) as [Hf|[(l & Hf & Hl)|(l & s & Hf & Hl)]].
  - destruct (future_empty w f Hf) as (_ & _ & Hi). congruence.
  - destruct (future_dangling w f l Hf Hl) as (_ & _ & Hi). congruence.
  - rewrite (future_is_ready_live w f l s) in Hr by done.
    assert (SharedState.ready_ s = true) as Hs by congruence.
    assert (heap w' !! l = Some s) as Hl' by by apply ready_stable.
    rewrite (future_is_ready_live w' f l s), (future_wait_live w' f l s) by done.
    unfold SharedState.wait. by rewrite Hs.
Qed.

(** X6.  The result of [get] is final.  Once [get] on a future has returned
    a value or thrown, it gives that same result, and leaves the world
    alone, after any further calls of the client. *)
Theorem X6_get_result_is_final f w cs r :
  (MyFuture.get f w).1 = r →
  r ≠ Blocks → r ≠ Undefined →
  MyFuture.get f (Client.run cs w) = (r, Client.run cs w).
Proof.
  intros Hget Hb Hu.
  destruct (future_cases w f) as [Hf|[(l & Hf & Hl)|(l & s & Hf & Hl)]].
  - destruct (future_empty w f Hf) as (Hg & _). rewrite Hg in Hget. subst r.
    by destruct (future_empty (Client.run cs w) f Hf) as (-> & _).
  - destruct (future_dangling w f l Hf Hl) as (Hg & _). rewrite Hg in Hget.
    by subst r.
  - rewrite (future_get_live w f l s) in Hget by done. simpl in Hget.
    assert (SharedState.ready_ s = true) as Hs.
    { destruct (SharedState.ready_ s) eqn:Hs; [done|].
      unfold SharedState.get_value in Hget. rewrite Hs in Hget. by subst r. }
    rewrite (future_get_live (Client.run cs w) f l s); [by rewrite Hget|done|].
    by apply ready_stable.
Qed.

(** X4.  Value and exception exclude each other.  In every world a client
    can reach (null pointers included), no shared state holds both a value
    and an exception pointer, and a shared state that is not ready holds
    neither: it is as [SharedState()] made it. *)
Theorem X4_value_and_exception_exclusive cs l s :
  heap (Client.run cs init_world) !! l = Some s →
  ¬ (is_Some (SharedState.value_ s) ∧ is_Some (SharedState.exception_ptr_ s))
  ∧ (SharedState.ready_ s = false → s = SharedState.init).
Proof.
  intros Hl.
  destruct (reachable_records (Client.run cs init_world) l s) as [os ->];
    [by exists cs | done |].
  split; [apply never_both | apply run_init_pending].
Qed.

(** X3.  An issued future is usable.  In every world a client can reach, a
    future returned by [get_future] is valid and bound to the shared state
    the promise holds, and that state exists: [is_ready] on it answers with
    the state's flag. *)
Theorem X3_issued_future_is_valid cs w this f w' :
  w = Client.run cs init_world →
  MyPromise.get_future this w = (Returns f, w') →
  MyFuture.valid (T:=T) (E:=E) f w' = (Returns true, w')
  ∧ ∃ l s p,
      MyFuture.state_ f = Some l
      ∧ objs w' !! this = Some p ∧ prom_state p = Some l
      ∧ heap w' !! l = Some s
      ∧ MyFuture.is_ready f w' = (Returns (SharedState.ready_ s), w').
Proof.
  intros Hw Hget.
  assert (no_dangling w) as Hnd by (apply reachable_no_dangling; by exists cs).
  pose proof (invoke_get_future w this) as Hinv.
  unfold Client.invoke, bind in Hinv. rewrite Hget in Hinv. simpl in Hinv.
  destruct (objs w !! this) as [p|] eqn:Hp; [|done].
  destruct (prom_state p) as [l|] eqn:Hpl; [|done].
  destruct (prom_future_retrieved p) eqn:Hfr; [done|].
  injection Hinv as -> ->.
  destruct (Hnd this p l Hp Hpl) as [s Hl].
  split; [done|]. exists l, s, (mk_promise (Some l) true). simpl.
  rewrite lookup_insert_eq. split_and!; try done.
  by rewrite (future_is_ready_live _ _ l s).
Qed.
End ReaderFacts.

Section ProvenanceFacts.
Context {T E : Type}.
Implicit Types (w : world T E) (P : SharedState.op T E → Prop)
  (c : Client.call T E) (cs : list (Client.call T E)).

(** The destructor writes nothing but the broken-promise error. *)
Lemma dtor_evolving_broken P this :
  P (SharedState.SetException (Some broken_promise)) →
  evolving P (MyPromise.dtor (T:=T) (E:=E) this).
Proof.
  intros HP. unfold MyPromise.dtor.
  apply evolving_bind; [apply evolving_load | intros p].
  apply evolving_bind; [|intros _; apply evolving_release].
  destruct (prom_state p) as [l|]; [|apply evolving_ret].
  apply evolving_bind; [apply reader_is_ready | intros r].
  destruct (negb r && prom_future_retrieved p); [|apply evolving_ret].
  by apply evolving_try_catch_all, writer_set_exception.
Qed.

(** Each call of a client writes what it was given, or the broken-promise
    error if it is a destruction. *)
Lemma exec_written c cs w :
  c ∈ cs → heap_evolves (written_by cs) (heap w) (heap (Client.exec c w)).
Proof.
  intros Hc. destruct c as [a|a b|a b|a|a val|a p|a|f|f|f|f]; simpl.
  - apply (ctor_evolving _ a w).
  - apply (move_ctor_evolving _ a b w).
  - apply (move_assign_evolving _ a b w).
  - apply (get_future_evolving _ a w).
  - apply (set_value_evolving _ a val). simpl. by exists a.
  - apply (set_exception_evolving _ a p). destruct p as [e|]; simpl.
    + left. by exists a.
    + by exists a.
  - apply (dtor_evolving_broken _ a). simpl. right. split; [done | by exists a].
  - apply (future_get_evolving _ f w).
  - apply (future_is_ready_evolving _ f w).
  - apply (future_wait_evolving _ f w).
  - apply heap_evolves_refl.
Qed.

Lemma run_written cs' cs w :
  (∀ c, c ∈ cs' → c ∈ cs) →
  heap_evolves (written_by cs) (heap w) (heap (Client.run cs' w)).
Proof.
  revert w. induction cs' as [|c cs' IH]; intros w Hsub.
  { apply heap_evolves_refl. }
  rewrite client_run_cons.
  apply (heap_evolves_trans _ _ (heap (Client.exec c w))).
  - apply exec_written, Hsub, list_elem_of_here.
  - apply IH. intros c' Hc'. by apply Hsub, list_elem_of_further.
Qed.

(** X5.  Nothing out of thin air.  After any calls [cs] of a client, what
    [get] on any future gives has a cause among those calls: a value it
    returns was passed to some [set_value]; an exception it throws is the
    no-state error of an empty future, or was passed to some
    [set_exception], or is the broken-promise error with a promise
    destroyed, or is the internal error with a null pointer passed to some
    [set_exception].  A [get] that blocks found a shared state as
    [SharedState()] made it. *)
Theorem X5_get_results_come_from_writes cs f :
  let w := Client.run cs (@init_world T E) in
  match (MyFuture.get f w).1 with
  | Returns val => ∃ a, Client.SetValue a val ∈ cs
  | Throws e =>
      (MyFuture.state_ f = None ∧ e = future_no_state)
      ∨ (∃ a, Client.SetException a (Some e) ∈ cs)
      ∨ (e = broken_promise ∧ ∃ a, Client.Destroy a ∈ cs)
      ∨ (e = internal_error ∧ ∃ a, Client.SetException a None ∈ cs)
  | Blocks => ∃ l, MyFuture.state_ f = Some l ∧ heap w !! l = Some SharedState.init
  | Undefined => ∃ l, MyFuture.state_ f = Some l ∧ heap w !! l = None
  end.
Proof.
  intros w.
  destruct (future_cases w f) as [Hf|[(l & Hf & Hl)|(l & s & Hf & Hl)]].
  - destruct (future_empty w f Hf) as (-> & _). simpl. by left.
  - destruct (future_dangling w f l Hf Hl) as (-> & _). simpl. by exists l.
  - rewrite (future_get_live w f l s) by done. simpl.
    pose proof (run_written cs cs init_world (λ _ H, H) l) as Hev.
    simpl in Hev. rewrite lookup_empty in Hev. fold w in Hev. rewrite Hl in Hev.
    destruct Hev as [?|(os & Hos & [= Hs])]; [done|].
    rewrite Forall_forall in Hos.
    unfold SharedState.get_value.
    destruct (SharedState.ready_ s) eqn:Hr; simpl.
    + destruct (SharedState.exception_ptr_ s) as [e|] eqn:He; simpl.
      { rewrite Hs in He. apply exception_provenance in He as [?|Hin]; [done|].
        apply Hos in Hin. simpl in Hin. destruct Hin as [?|[? ?]]; auto. }
      destruct (SharedState.value_ s) as [val|] eqn:Hv; simpl.
      { rewrite Hs in Hv. apply value_provenance in Hv as [?|Hin]; [done|].
        by apply Hos in Hin. }
      rewrite Hs in Hr, Hv, He.
      destruct (null_provenance os _ Hr Hv He) as [?|Hin]; [done|].
      apply Hos in Hin. simpl in Hin. right. right. right. by split.
    + exists l. split; [done|]. rewrite Hl. f_equal.
      rewrite Hs in *. by apply run_init_pending.
Qed.
End ProvenanceFacts.

(** * One writer per shared state *)

Section OwnershipFacts.
Context {T E : Type}.
Implicit Types (w : world T E) (s : SharedState.t T E) (p q : promise_obj)
  (c : Client.call T E) (cs : list (Client.call T E)).

Lemma unique_owner_heap w (h : gmap loc (SharedState.t T E)) :
  unique_owner w → unique_owner {| heap := h; objs := objs w |}.
Proof. done. Qed.

Lemma unique_owner_insert w a p :
  unique_owner w →
  (∀ l x q, prom_state p = Some l → x ≠ a → objs w !! x = Some q →
            prom_state q ≠ Some l) →
  unique_owner {| heap := heap w; objs := <[a := p]> (objs w) |}.
Proof.
  intros Hw Hp c d pc pd l Hc Hd Hlc Hld. simpl in *.
  destruct (decide (c = a)) as [->|Hca], (decide (d = a)) as [->|Hda]; try done.
  - rewrite lookup_insert_eq in Hc. rewrite lookup_insert_ne in Hd by done.
    injection Hc as <-. by destruct (Hp l d pd).
  - rewrite lookup_insert_eq in Hd. rewrite lookup_insert_ne in Hc by done.
    injection Hd as <-. by destruct (Hp l c pc).
  - rewrite lookup_insert_ne in Hc, Hd by done. by apply (Hw c d pc pd l).
Qed.

Lemma unique_owner_delete w a :
  unique_owner w → unique_owner {| heap := heap w; objs := delete a (objs w) |}.
Proof.
  intros Hw c d pc pd l Hc Hd Hlc Hld. simpl in *.
  apply lookup_delete_Some in Hc as [_ Hc], Hd as [_ Hd].
  by apply (Hw c d pc pd l).
Qed.

(** The world both move operations leave: the pointer has changed hands. *)
Lemma unique_owner_moved w a b p :
  unique_owner w → objs w !! b = Some p →
  unique_owner
    {| heap := heap w;
       objs := <[b := mk_promise None true]> (<[a := p]> (objs w)) |}.
Proof.
  intros Hw Hb c d pc pd l Hc Hd Hlc Hld. simpl in *.
  assert (∀ x px, <[b:=mk_promise None true]> (<[a:=p]> (objs w)) !! x = Some px →
            prom_state px = Some l →
            x ≠ b ∧ (x = a ∧ px = p ∨ x ≠ a ∧ objs w !! x = Some px)) as Hcases.
  { intros x px Hx Hlx. destruct (decide (x = b)) as [->|Hxb].
    - rewrite lookup_insert_eq in Hx. injection Hx as <-. done.
    - rewrite lookup_insert_ne in Hx by done. split; [done|].
      destruct (decide (x = a)) as [->|Hxa].
      + rewrite lookup_insert_eq in Hx. injection Hx as <-. by left.
      + rewrite lookup_insert_ne in Hx by done. by right. }
  destruct (Hcases c pc Hc Hlc) as [Hcb [[-> ->]|[Hca Hc']]],
    (Hcases d pd Hd Hld) as [Hdb [[-> ->]|[Hda Hd']]]; try done.
  - destruct Hdb. by apply (Hw d b pd p l).
  - destruct Hcb. by apply (Hw c b pc p l).
  - by apply (Hw c d pc pd l).
Qed.

Lemma unique_owner_ctor a w :
  no_dangling w → unique_owner w → unique_owner (MyPromise.ctor a w).2.
Proof.
  intros Hnd Hw. rewrite ctor_world. cbn [snd].
  set (l := fresh (dom (heap w))).
  apply (unique_owner_heap {| heap := heap w; objs := _ |}).
  apply unique_owner_insert; [done|].
  intros l' c q [= <-] _ Hc Hq.
  destruct (Hnd c q l Hc Hq) as [s Hs].
  apply (is_fresh (dom (heap w))). apply elem_of_dom. by exists s.
Qed.

Lemma unique_owner_move_ctor a b w :
  unique_owner w → unique_owner (MyPromise.move_ctor a b w).2.
Proof.
  intros Hw. destruct (objs w !! b) as [p|] eqn:Hp.
  - rewrite (move_ctor_world w a b p) by done. by apply unique_owner_moved.
  - unfold MyPromise.move_ctor, bind, load. by rewrite Hp.
Qed.

Lemma unique_owner_move_assign a b w :
  unique_owner w → unique_owner (MyPromise.move_assign a b w).2.
Proof.
  intros Hw. destruct (decide (a = b)) as [->|Hne].
  { unfold MyPromise.move_assign. rewrite decide_False by (by intros ?).
    unfold bind, load, ret. by destruct (objs w !! b). }
  destruct (objs w !! b) as [p|] eqn:Hp.
  - destruct (objs w !! a) as [q|] eqn:Hq.
    + rewrite (move_assign_world w a b p q) by done. by apply unique_owner_moved.
    + unfold MyPromise.move_assign. rewrite decide_True by done.
      unfold bind, load, update.
      repeat (progress (simpl; rewrite ?Hp, ?Hq, ?(lookup_insert_ne _ b a) by done)).
      apply unique_owner_insert; [done|]. by intros l c q [=].
  - unfold MyPromise.move_assign. rewrite decide_True by done.
    unfold bind, load. by rewrite Hp.
Qed.

Lemma unique_owner_invoke (m : Client.method T E) a w :
  unique_owner w → unique_owner (Client.invoke m a w).2.
Proof.
  intros Hw.
  destruct m as [|val|ptr|];
    rewrite ?invoke_get_future, ?invoke_set_value, ?invoke_set_exception,
      ?invoke_destroy;
    repeat case_match; simpl; try done;
    try (by apply (unique_owner_delete {| heap := _; objs := _ |})).
  apply unique_owner_insert; [done|]. simpl.
  intros l c q [= <-] Hca Hc Hq. destruct Hca. eapply (Hw c a); eauto.
Qed.

Lemma unique_owner_exec c w :
  no_dangling w → unique_owner w → unique_owner (Client.exec c w).
Proof.
  intros Hnd Hw. destruct c as [a|a b|a b|a|a val|a ptr|a|f|f|f|f]; simpl.
  - by apply unique_owner_ctor.
  - by apply unique_owner_move_ctor.
  - by apply unique_owner_move_assign.
  - rewrite <-(invoke_world Client.CallGetFuture). by apply unique_owner_invoke.
  - rewrite <-(invoke_world (Client.CallSetValue val)). by apply unique_owner_invoke.
  - rewrite <-(invoke_world (Client.CallSetException ptr)).
    by apply unique_owner_invoke.
  - rewrite <-(invoke_world Client.CallDestroy). by apply unique_owner_invoke.
  - by rewrite future_get_world.
  - by rewrite future_is_ready_world.
  - by rewrite future_wait_world.
  - done.
Qed.

Lemma reachable_unique_owner w : Client.reachable w → unique_owner w.
Proof.
  intros [cs <-].
  cut (∀ w0 : world T E, no_dangling w0 → unique_owner w0 →
         unique_owner (Client.run cs w0)).
  { intros Hcut. apply Hcut.
    - intros a p l Hp. simpl in Hp. by rewrite lookup_empty in Hp.
    - intros a b p q l Hp. simpl in Hp. by rewrite lookup_empty in Hp. }
  induction cs as [|c cs IH]; intros w0 Hnd Hw0; [done|].
  rewrite client_run_cons.
  apply IH; [by apply no_dangling_exec | by apply unique_owner_exec].
Qed.

(** X7.  One writer per shared state.  In every world a client can reach,
    two distinct promise objects never hold the same shared state, so what
    is done through one promise (a write, or its destruction) leaves the
    shared state of the other as it is. *)
Theorem X7_one_writer_per_state cs w a b p q la lb val ptr :
  w = Client.run cs init_world →
  objs w !! a = Some p → prom_state p = Some la →
  objs w !! b = Some q → prom_state q = Some lb →
  a ≠ b →
  la ≠ lb
  ∧ heap (MyPromise.set_value b val w).2 !! la = heap w !! la
  ∧ heap (MyPromise.set_exception b ptr w).2 !! la = heap w !! la
  ∧ heap (MyPromise.dtor b w).2 !! la = heap w !! la.
Proof.
  intros Hw Ha Hla Hb Hlb Hab.
  assert (Client.reachable w) as Hreach by by exists cs.
  assert (la ≠ lb) as Hne.
  { intros ->. apply Hab.
    by apply (reachable_unique_owner w Hreach a b p q lb). }
  destruct (reachable_no_dangling w Hreach b q lb Hb Hlb) as [s Hs].
  split_and!; [done|..].
  - rewrite (promise_set_value_live w b q lb s) by done. simpl.
    by rewrite lookup_insert_ne.
  - rewrite (promise_set_exception_live w b q lb s) by done. simpl.
    by rewrite lookup_insert_ne.
  - destruct (SharedState.ready_ s) eqn:Hr;
      [|destruct (prom_future_retrieved q) eqn:Hfr].
    + by rewrite (dtor_quiet w b q lb s) by auto.
    + rewrite (dtor_abandoned w b q lb s) by done. simpl.
      by rewrite lookup_insert_ne.
    + by rewrite (dtor_quiet w b q lb s) by auto.
Qed.

(** ** A shared state no promise points at *)

Lemma unreferenced_insert (h h' : gmap loc (SharedState.t T E)) o l a p :
  unreferenced l {| heap := h; objs := o |} →
  prom_state p ≠ Some l →
  unreferenced l {| heap := h'; objs := <[a := p]> o |}.
Proof.
  intros Hu Hp x px Hx. simpl in Hx.
  destruct (decide (x = a)) as [->|Hxa].
  - rewrite lookup_insert_eq in Hx. by injection Hx as <-.
  - rewrite lookup_insert_ne in Hx by done. by apply (Hu x).
Qed.

Lemma unreferenced_delete (h h' : gmap loc (SharedState.t T E)) o l a :
  unreferenced l {| heap := h; objs := o |} →
  unreferenced l {| heap := h'; objs := delete a o |}.
Proof.
  intros Hu x px Hx. simpl in Hx.
  apply lookup_delete_Some in Hx as [_ Hx]. by apply (Hu x).
Qed.

Lemma unreferenced_moved (h h' : gmap loc (SharedState.t T E)) o l a b p :
  unreferenced l {| heap := h; objs := o |} →
  o !! b = Some p →
  unreferenced l
    {| heap := h'; objs := <[b := mk_promise None true]> (<[a := p]> o) |}.
Proof.
  intros Hu Hb.
  apply (unreferenced_insert h); [|done].
  apply (unreferenced_insert h); [done|]. by apply (Hu b).
Qed.

Lemma orphan_ctor a w l s :
  unreferenced l w ∧ heap w !! l = Some s →
  unreferenced l (MyPromise.ctor a w).2 ∧ heap (MyPromise.ctor a w).2 !! l = Some s.
Proof.
  intros [Hu Hl]. rewrite ctor_world. cbn [snd].
  assert (fresh (dom (heap w)) ≠ l) as Hne.
  { intros <-. apply (is_fresh (dom (heap w))). apply elem_of_dom. by exists s. }
  split.
  - apply (unreferenced_insert (heap w)); [done|]. simpl. congruence.
  - simpl. by rewrite lookup_insert_ne.
Qed.

Lemma orphan_move_ctor a b w l s :
  unreferenced l w ∧ heap w !! l = Some s →
  unreferenced l (MyPromise.move_ctor a b w).2
  ∧ heap (MyPromise.move_ctor a b w).2 !! l = Some s.
Proof.
  intros [Hu Hl]. destruct (objs w !! b) as [p|] eqn:Hp.
  - rewrite (move_ctor_world w a b p) by done.
    split; [by apply (unreferenced_moved (heap w)) | done].
  - unfold MyPromise.move_ctor, bind, load. by rewrite Hp.
Qed.

Lemma orphan_move_assign a b w l s :
  unreferenced l w ∧ heap w !! l = Some s →
  unreferenced l (MyPromise.move_assign a b w).2
  ∧ heap (MyPromise.move_assign a b w).2 !! l = Some s.
Proof.
  intros [Hu Hl]. destruct (decide (a = b)) as [->|Hne].
  { unfold MyPromise.move_assign. rewrite decide_False by (by intros ?).
    unfold bind, load, ret. by destruct (objs w !! b). }
  destruct (objs w !! b) as [p|] eqn:Hp.
  - destruct (objs w !! a) as [q|] eqn:Hq.
    + rewrite (move_assign_world w a b p q) by done.
      split; [by apply (unreferenced_moved (heap w)) | done].
    + unfold MyPromise.move_assign. rewrite decide_True by done.
      unfold bind, load, update.
      repeat (progress (simpl; rewrite ?Hp, ?Hq, ?(lookup_insert_ne _ b a) by done)).
      split; [by apply (unreferenced_insert (heap w)) | done].
  - unfold MyPromise.move_assign. rewrite decide_True by done.
    unfold bind, load. by rewrite Hp.
Qed.

Lemma orphan_invoke (m : Client.method T E) a w l s :
  unreferenced l w ∧ heap w !! l = Some s →
  unreferenced l (Client.invoke m a w).2 ∧ heap (Client.invoke m a w).2 !! l = Some s.
Proof.
  intros [Hu Hl].
  assert (∀ p l', objs w !! a = Some p → prom_state p = Some l' → l' ≠ l) as Hne.
  { intros p l' Hp Hl' ->. by apply (Hu a p). }
  destruct m as [|val|ptr|];
    rewrite ?invoke_get_future, ?invoke_set_value, ?invoke_set_exception,
      ?invoke_destroy;
    repeat case_match; simpl; try done;
    (split;
     [ first [ by apply (unreferenced_delete (heap w))
             | apply (unreferenced_insert (heap w)); [done|]; simpl;
               intros [= ->]; by eapply Hne; eauto
             | done ]
     | simpl; rewrite ?lookup_insert_ne; [done | by eapply Hne; eauto ..] ]).
Qed.

Lemma orphan_exec c w l s :
  unreferenced l w ∧ heap w !! l = Some s →
  unreferenced l (Client.exec c w) ∧ heap (Client.exec c w) !! l = Some s.
Proof.
  intros Ho. destruct c as [a|a b|a b|a|a val|a ptr|a|f|f|f|f]; simpl.
  - by apply orphan_ctor.
  - by apply orphan_move_ctor.
  - by apply orphan_move_assign.
  - rewrite <-(invoke_world Client.CallGetFuture). by apply orphan_invoke.
  - rewrite <-(invoke_world (Client.CallSetValue val)). by apply orphan_invoke.
  - rewrite <-(invoke_world (Client.CallSetException ptr)). by apply orphan_invoke.
  - rewrite <-(invoke_world Client.CallDestroy). by apply orphan_invoke.
  - by rewrite future_get_world.
  - by rewrite future_is_ready_world.
  - by rewrite future_wait_world.
  - done.
Qed.

Lemma orphan_run cs w l s :
  unreferenced l w ∧ heap w !! l = Some s →
  heap (Client.run cs w) !! l = Some s.
Proof.
  revert w. induction cs as [|c cs IH]; intros w Ho; [apply Ho|].
  rewrite client_run_cons. by apply IH, orphan_exec.
Qed.

(** X8.  Move assignment orphans the overwritten state.  When a promise
    object that holds a pending shared state is the destination of a move
    assignment from another promise object, its old state is given up
    without a broken-promise error (unlike in the destructor): no promise
    points at it any more, and a [get] on a future bound to it blocks after
    every sequence of further calls of the client. *)
Theorem X8_move_assignment_orphans_state cs0 w dst src p q l s f cs :
  w = Client.run cs0 init_world →
  objs w !! dst = Some q → prom_state q = Some l →
  objs w !! src = Some p → dst ≠ src →
  heap w !! l = Some s → SharedState.ready_ s = false →
  MyFuture.state_ f = Some l →
  let w' := Client.run cs (MyPromise.move_assign dst src w).2 in
  heap w' !! l = Some s ∧ MyFuture.get f w' = (Blocks, w').
Proof.
  intros Hw Hq Hql Hp Hne Hl Hr Hf w'.
  assert (unique_owner w) as Huniq by (apply reachable_unique_owner; by exists cs0).
  assert (heap w' !! l = Some s) as Hl'.
  { apply orphan_run. rewrite (move_assign_world w dst src p q) by done. simpl.
    split; [|done]. intros x px Hx Hpx. simpl in Hx.
    destruct (decide (x = src)) as [->|Hxs].
    { rewrite lookup_insert_eq in Hx. by injection Hx as <-. }
    rewrite lookup_insert_ne in Hx by done.
    destruct (decide (x = dst)) as [->|Hxd].
    - rewrite lookup_insert_eq in Hx. injection Hx as <-.
      apply Hne. by apply (Huniq dst src q p l).
    - rewrite lookup_insert_ne in Hx by done.
      apply Hxd. by apply (Huniq x dst px q l). }
  split; [done|].
  rewrite (future_get_live w' f l s) by done.
  unfold SharedState.get_value. by rewrite Hr.
Qed.
End OwnershipFacts.

(** * Writes composed with moves, destruction and [get_future] *)

Section CompositionFacts.
Context {T E : Type}.
Implicit Types (w : world T E) (s : SharedState.t T E) (f : MyFuture.t)
  (p q : promise_obj) (cs : list (Client.call T E)).

(** A write through a promise whose state is ready is refused and changes
    nothing. *)
Lemma promise_set_value_ready w this p l s val :
  objs w !! this = Some p → prom_state p = Some l → heap w !! l = Some s →
  SharedState.ready_ s = true →
  MyPromise.set_value this val w = (Throws already_satisfied, w).
Proof.
  intros Hp Hpl Hl Hr. rewrite (promise_set_value_live w this p l s) by done.
  rewrite set_value_ready by done. simpl.
  by rewrite insert_id, world_eta by done.
Qed.

Lemma promise_set_exception_ready w this p l s ptr :
  objs w !! this = Some p → prom_state p = Some l → heap w !! l = Some s →
  SharedState.ready_ s = true →
  MyPromise.set_exception this ptr w = (Throws already_satisfied, w).
Proof.
  intros Hp Hpl Hl Hr. rewrite (promise_set_exception_live w this p l s) by done.
  rewrite set_exception_ready by done. simpl.
  by rewrite insert_id, world_eta by done.
Qed.

(** The world a [set_value] that returned has left, in a reachable world. *)
Lemma set_value_returned_world cs w this p val w1 :
  w = Client.run cs init_world →
  objs w !! this = Some p →
  MyPromise.set_value this val w = (Returns tt, w1) →
  ∃ l, prom_state p = Some l
       ∧ heap w !! l = Some SharedState.init
       ∧ w1 = {| heap := <[l := SharedState.mk (Some val) None true]> (heap w);
                 objs := objs w |}.
Proof.
  intros Hw Hp Hset.
  destruct (promise_set_value_returned _ _ _ _ _ Hp Hset) as (l & s & Hpl & Hl & Hr & _).
  assert (s = SharedState.init) as ->.
  { apply (reachable_pending w l); [by exists cs | done | done]. }
  exists l. split_and!; try done.
  rewrite (promise_set_value_live w this p l SharedState.init) in Hset by done.
  by injection Hset as <-.
Qed.

(** X9.  Destroying the promise after the write keeps the result.  In a
    world the client can reach, when [set_value] with [val] has returned on
    a promise and the promise object is then destroyed, the destructor
    returns, changes no shared state, and [get] on a future bound to the
    promise's state returns [val]. *)
Theorem X9_destroying_after_write_keeps_value cs w this p f val w1 :
  w = Client.run cs init_world →
  objs w !! this = Some p →
  MyFuture.state_ f = prom_state p →
  MyPromise.set_value this val w = (Returns tt, w1) →
  let w2 := (MyPromise.dtor this w1).2 in
  (MyPromise.dtor this w1).1 = Returns tt
  ∧ heap w2 = heap w1
  ∧ objs w2 !! this = None
  ∧ MyFuture.get f w2 = (Returns val, w2).
Proof.
  intros Hw Hp Hf Hset w2.
  destruct (set_value_returned_world cs w this p val w1 Hw Hp Hset)
    as (l & Hpl & Hl & ->).
  set (s1 := SharedState.mk (T:=T) (E:=E) (Some val) None true) in *.
  set (w1 := {| heap := <[l := s1]> (heap w); objs := objs w |}) in *.
  assert (heap w1 !! l = Some s1) as Hl1 by apply lookup_insert_eq.
  subst w2. rewrite (dtor_quiet w1 this p l s1) by auto.
  simpl. split_and!; try done.
  - apply lookup_delete_eq.
  - rewrite (future_get_live _ f l s1); [done | congruence | done].
Qed.

(** X10.  Self move assignment.  Assigning a live promise object to itself
    by move returns and changes nothing: the object keeps its shared state
    and its flag. *)
Theorem X10_self_move_assignment_changes_nothing w this p :
  objs w !! this = Some p →
  MyPromise.move_assign this this w = (Returns tt, w)
  ∧ objs (MyPromise.move_assign this this w).2 !! this = Some p.
Proof.
  intros Hp. unfold MyPromise.move_assign.
  rewrite decide_False by (by intros ?).
  unfold bind, load, ret. by rewrite Hp.
Qed.

(** X11.  At most one write, across a move.  In a world the client can
    reach, when [set_value] with [val] has returned on a promise and the
    promise is then moved to a new object, every write through the new
    object throws "Promise already satisfied" and changes nothing, and
    [get] on a future bound to the state still returns [val]. *)
Theorem X11_second_write_after_move_is_refused cs w src dst p f val val' ptr w1 :
  w = Client.run cs init_world →
  objs w !! src = Some p →
  MyFuture.state_ f = prom_state p →
  MyPromise.set_value src val w = (Returns tt, w1) →
  dst ≠ src →
  let w2 := (MyPromise.move_ctor dst src w1).2 in
  MyPromise.set_value dst val' w2 = (Throws already_satisfied, w2)
  ∧ MyPromise.set_exception dst ptr w2 = (Throws already_satisfied, w2)
  ∧ MyFuture.get f w2 = (Returns val, w2).
Proof.
  intros Hw Hp Hf Hset Hne w2.
  destruct (set_value_returned_world cs w src p val w1 Hw Hp Hset)
    as (l & Hpl & Hl & ->).
  set (s1 := SharedState.mk (T:=T) (E:=E) (Some val) None true).
  subst w2. rewrite (move_ctor_world _ dst src p) by done. simpl.
  set (w2 := {| heap := _; objs := _ |}).
  assert (objs w2 !! dst = Some p) as Hdst.
  { unfold w2. simpl. by rewrite lookup_insert_ne, lookup_insert_eq. }
  assert (heap w2 !! l = Some s1) as Hl2 by apply lookup_insert_eq.
  split_and!.
  - by apply (promise_set_value_ready w2 dst p l s1).
  - by apply (promise_set_exception_ready w2 dst p l s1).
  - by rewrite (future_get_live w2 f l s1) by congruence.
Qed.

(** X12.  Writing before the future is taken.  In a world the client can
    reach, when [set_value] with [val] has returned on a promise that has
    not issued a future yet, [get_future] still succeeds afterwards, and
    [get] on the future it returns gives [val] at once, without
    blocking. *)
Theorem X12_get_future_after_write cs w this p val w1 :
  w = Client.run cs init_world →
  objs w !! this = Some p →
  prom_future_retrieved p = false →
  MyPromise.set_value this val w = (Returns tt, w1) →
  ∃ f w2,
    MyPromise.get_future this w1 = (Returns f, w2)
    ∧ MyFuture.is_ready f w2 = (Returns true, w2)
    ∧ MyFuture.get f w2 = (Returns val, w2).
Proof.
  intros Hw Hp Hfr Hset.
  destruct (set_value_returned_world cs w this p val w1 Hw Hp Hset)
    as (l & Hpl & Hl & ->).
  set (s1 := SharedState.mk (T:=T) (E:=E) (Some val) None true).
  eexists (MyFuture.mk (Some l)), _. split.
  - by apply (get_future_first _ this p l).
  - simpl. split.
    + by erewrite future_is_ready_live; [| done | apply lookup_insert_eq].
    + by erewrite future_get_live; [| done | apply lookup_insert_eq].
Qed.
End CompositionFacts.

(** * The demo producer *)

Section DemoFacts.
Context {E : Type}.
Implicit Types (w : world Z E) (s : SharedState.t Z E) (p : promise_obj)
  (out : list string).

Lemma set_value_dead w a (val : Z) :
  objs w !! a = None → MyPromise.set_value a val w = (Undefined, w).
Proof. intros Ha. unfold MyPromise.set_value, bind, load. by rewrite Ha. Qed.

Lemma set_value_dangling w a p l (val : Z) :
  objs w !! a = Some p → prom_state p = Some l → heap w !! l = None →
  MyPromise.set_value a val w = (Undefined, w).
Proof.
  intros Ha Hpl Hl. unfold MyPromise.set_value, bind, load, call_state.
  by rewrite Ha, Hpl, Hl.
Qed.

(** The three ways [produce_data] can go. *)
Lemma produce_data_stores w promise p l s out :
  objs w !! promise = Some p → prom_state p = Some l → heap w !! l = Some s →
  SharedState.ready_ s = false →
  produce_data promise out w
  = (Returns tt, out ++ ["Producer: Working..."],
     {| heap := <[l := SharedState.mk (Some 42%Z) (SharedState.exception_ptr_ s) true]>
                  (heap w);
        objs := delete promise (objs w) |}).
Proof.
  intros Hp Hpl Hl Hr.
  unfold produce_data, at_scope_exit, try_catch, io_seq, print, sleep_for, lift.
  rewrite (promise_set_value_live w promise p l s) by done.
  unfold SharedState.set_value. rewrite Hr. simpl.
  set (s1 := SharedState.mk (Some 42%Z) (SharedState.exception_ptr_ s) true).
  set (w1 := {| heap := <[l := s1]> (heap w); objs := objs w |}).
  assert (heap w1 !! l = Some s1) as Hl1 by apply lookup_insert_eq.
  by rewrite (dtor_quiet w1 promise p l s1) by auto.
Qed.

Lemma produce_data_satisfied w promise p l s out :
  objs w !! promise = Some p → prom_state p = Some l → heap w !! l = Some s →
  SharedState.ready_ s = true →
  produce_data promise out w
  = (Throws already_satisfied, out ++ ["Producer: Working..."],
     {| heap := heap w; objs := delete promise (objs w) |}).
Proof.
  intros Hp Hpl Hl Hr.
  unfold produce_data, at_scope_exit, try_catch, io_seq, print, sleep_for, lift.
  rewrite (promise_set_value_ready w promise p l s) by done.
  rewrite (promise_set_exception_ready w promise p l s) by done.
  by rewrite (dtor_quiet w promise p l s) by auto.
Qed.

Lemma produce_data_empty w promise p out :
  objs w !! promise = Some p → prom_state p = None →
  produce_data promise out w
  = (Throws promise_no_state, out ++ ["Producer: Working..."],
     {| heap := heap w; objs := delete promise (objs w) |}).
Proof.
  intros Hp Hpl.
  unfold produce_data, at_scope_exit, try_catch, io_seq, print, sleep_for, lift.
  rewrite (promise_set_value_empty w promise p) by done.
  rewrite (promise_set_exception_empty w promise p) by done.
  by rewrite (dtor_empty w promise p).
Qed.

(** X13.  The producer delivers 42.  In a world the client can reach, on a
    promise object whose shared state is pending, [produce_data] returns
    normally, having written the one line "Producer: Working...", stored 42
    and destroyed its parameter; [get] on a future bound to the state
    returns 42. *)
Theorem X13_produce_data_delivers_42 cs w promise p l s f out :
  w = Client.run cs init_world →
  objs w !! promise = Some p → prom_state p = Some l →
  heap w !! l = Some s → SharedState.ready_ s = false →
  MyFuture.state_ f = Some l →
  ∃ w',
    produce_data promise out w
    = (Returns tt, out ++ ["Producer: Working..."], w')
    ∧ objs w' !! promise = None
    ∧ MyFuture.get f w' = (Returns 42%Z, w').
Proof.
  intros Hw Hp Hpl Hl Hr Hf.
  assert (s = SharedState.init) as ->.
  { apply (reachable_pending w l); [by exists cs | done | done]. }
  eexists. split; [by apply (produce_data_stores w promise p l)|].
  simpl. split; [apply lookup_delete_eq|].
  by erewrite future_get_live; [| done | apply lookup_insert_eq].
Qed.

(** X14.  The producer's handler never completes.  Whatever the world,
    [produce_data] writes exactly the line "Producer: Working..." and never
    "Producer: Exception set.": either it stores 42 in a pending state and
    returns, or [set_value] throws ("Promise already satisfied" or "Promise
    has no state"), the [set_exception] of the handler throws the same
    error, which leaves the function, and no shared state is changed. *)
Theorem X14_produce_data_handler_never_completes w promise out :
  let '(r, out', w') := produce_data promise out w in
  out' = out ++ ["Producer: Working..."]
  ∧ ((r = Returns tt
      ∧ ∃ p l s, objs w !! promise = Some p ∧ prom_state p = Some l
                 ∧ heap w !! l = Some s ∧ SharedState.ready_ s = false
                 ∧ heap w' !! l
                   = Some (SharedState.mk (Some 42%Z) (SharedState.exception_ptr_ s) true))
     ∨ ((r = Throws already_satisfied ∨ r = Throws promise_no_state ∨ r = Undefined)
        ∧ heap w' = heap w)).
Proof.
  destruct (objs w !! promise) as [p|] eqn:Hp.
  - destruct (prom_state p) as [l|] eqn:Hpl.
    + destruct (heap w !! l) as [s|] eqn:Hl.
      * destruct (SharedState.ready_ s) eqn:Hr.
        { rewrite (produce_data_satisfied w promise p l s) by done.
          split; [done|]. right. auto. }
        rewrite (produce_data_stores w promise p l s) by done.
        split; [done|]. left. split; [done|]. exists p, l, s.
        split_and!; try done. apply lookup_insert_eq.
      * unfold produce_data, at_scope_exit, try_catch, io_seq, print, sleep_for, lift.
        rewrite (set_value_dangling w promise p l) by done.
        split; [done|]. right. auto.
    + rewrite (produce_data_empty w promise p) by done.
      split; [done|]. right. auto.
  - unfold produce_data, at_scope_exit, try_catch, io_seq, print, sleep_for, lift.
    rewrite (set_value_dead w promise) by done.
    split; [done|]. right. auto.
Qed.
End DemoFacts.


(** * The handoff, and who can wake a reader *)

Section HandoffFacts.
Context {T E : Type}.
Implicit Types (w : world T E) (s : SharedState.t T E) (f : MyFuture.t)
  (p q : promise_obj) (c : Client.call T E).

(** X15.  The handoff of [main].  From any world: a promise is constructed,
    its future taken, and the promise moved into a second object (the
    producer's).  A [get] on the future then blocks.  [set_value] with
    [val] through the second object returns, and [get] returns [val]; the
    destruction of both promise objects afterwards changes no shared
    state, and [get] still returns [val]. *)
Theorem X15_handoff_through_moved_promise w0 a b val :
  a ≠ b →
  let w1 := (MyPromise.ctor a w0).2 in
  ∃ f w2 w4,
    MyPromise.get_future a w1 = (Returns f, w2)
    ∧ MyFuture.get f (MyPromise.move_ctor b a w2).2
      = (Blocks, (MyPromise.move_ctor b a w2).2)
    ∧ MyPromise.set_value b val (MyPromise.move_ctor b a w2).2 = (Returns tt, w4)
    ∧ MyFuture.get f w4 = (Returns val, w4)
    ∧ let w5 := Client.run [Client.Destroy b; Client.Destroy a] w4 in
      heap w5 = heap w4
      ∧ objs w5 !! a = None ∧ objs w5 !! b = None
      ∧ MyFuture.get f w5 = (Returns val, w5).
Proof.
  intros Hab w1. subst w1. rewrite ctor_world. cbn [snd].
  set (l := fresh (dom (heap w0))).
  set (h1 := <[l := SharedState.init]> (heap w0)).
  set (p0 := mk_promise (Some l) false).
  set (p1 := mk_promise (Some l) true).
  set (w1 := {| heap := h1; objs := <[a := p0]> (objs w0) |}).
  set (w2 := {| heap := h1; objs := <[a := p1]> (objs w1) |}).
  set (w3 := {| heap := h1;
                objs := <[a := mk_promise None true]> (<[b := p1]> (objs w2)) |}).
  set (s4 := SharedState.mk (T:=T) (E:=E) (Some val) None true).
  set (w4 := {| heap := <[l := s4]> h1; objs := objs w3 |}).
  assert (h1 !! l = Some SharedState.init) as Hl1 by apply lookup_insert_eq.
  assert (objs w2 !! a = Some p1) as Ha2 by apply lookup_insert_eq.
  assert (MyPromise.move_ctor b a w2 = (Returns tt, w3)) as Hmove
    by by apply move_ctor_world.
  assert (objs w3 !! b = Some p1) as Hb3.
  { unfold w3. simpl. by rewrite lookup_insert_ne, lookup_insert_eq. }
  assert (objs w3 !! a = Some (mk_promise None true)) as Ha3
    by apply lookup_insert_eq.
  assert (heap w4 !! l = Some s4) as Hl4 by apply lookup_insert_eq.
  exists (MyFuture.mk (Some l)), w2, w4. rewrite Hmove. cbn [snd].
  split; [|split; [|split; [|split]]].
  - apply (get_future_first w1 a p0 l); [apply lookup_insert_eq | done | done].
  - by rewrite (future_get_live w3 _ l SharedState.init).
  - by rewrite (promise_set_value_live w3 b p1 l SharedState.init).
  - by rewrite (future_get_live w4 _ l s4).
  - change (Client.run [Client.Destroy b; Client.Destroy a] w4)
      with ((MyPromise.dtor a (MyPromise.dtor b w4).2).2).
    rewrite (dtor_quiet w4 b p1 l s4) by auto. cbn [snd].
    set (w4' := {| heap := heap w4; objs := delete b (objs w4) |}).
    assert (objs w4' !! a = Some (mk_promise None true)) as Ha4.
    { unfold w4'. cbn [objs]. by rewrite lookup_delete_ne. }
    rewrite (dtor_empty w4' a _ Ha4) by done. cbv zeta. cbn [snd heap objs].
    split_and!; try done.
    + apply lookup_delete_eq.
    + rewrite lookup_delete_ne by done. apply lookup_delete_eq.
    + by rewrite (future_get_live _ _ l s4).
Qed.

Lemma heap_move_ctor a b w : heap (MyPromise.move_ctor a b w).2 = heap w.
Proof.
  destruct (objs w !! b) as [p|] eqn:Hp.
  - by rewrite (move_ctor_world w a b p).
  - unfold MyPromise.move_ctor, bind, load. by rewrite Hp.
Qed.

Lemma heap_move_assign a b w : heap (MyPromise.move_assign a b w).2 = heap w.
Proof.
  destruct (decide (a = b)) as [->|Hne].
  { unfold MyPromise.move_assign. rewrite decide_False by (by intros ?).
    unfold bind, load, ret. by destruct (objs w !! b). }
  destruct (objs w !! b) as [p|] eqn:Hp.
  - destruct (objs w !! a) as [q|] eqn:Hq.
    + by rewrite (move_assign_world w a b p q).
    + unfold MyPromise.move_assign. rewrite decide_True by done.
      unfold bind, load, update.
      by repeat (progress (simpl; rewrite ?Hp, ?Hq, ?(lookup_insert_ne _ b a) by done)).
  - unfold MyPromise.move_assign. rewrite decide_True by done.
    unfold bind, load. by rewrite Hp.
Qed.

(** A record changes only under a write or a destruction made through a
    promise object that points at it. *)
Lemma record_changed_by_owner c w l s :
  heap w !! l = Some s →
  heap (Client.exec c w) !! l = Some s
  ∨ ∃ a p, objs w !! a = Some p ∧ prom_state p = Some l
           ∧ ((∃ val, c = Client.SetValue a val)
              ∨ (∃ ptr, c = Client.SetException a ptr)
              ∨ c = Client.Destroy a).
Proof.
  intros Hl. destruct c as [a|a b|a b|a|a val|a ptr|a|f|f|f|f];
    unfold Client.exec.
  - left. rewrite ctor_world. simpl. rewrite lookup_insert_ne; [done|].
    intros Heq. apply (is_fresh (dom (heap w))). rewrite Heq.
    apply elem_of_dom. by exists s.
  - left. by rewrite heap_move_ctor.
  - left. by rewrite heap_move_assign.
  - left. rewrite <-(invoke_world Client.CallGetFuture), invoke_get_future.
    by repeat case_match.
  - rewrite <-(invoke_world (Client.CallSetValue val)), invoke_set_value.
    destruct (objs w !! a) as [p|] eqn:Hp; [|by left].
    destruct (prom_state p) as [l'|] eqn:Hpl; [|by left].
    destruct (decide (l' = l)) as [->|Hne]; [right; exists a, p; eauto|].
    left. repeat case_match; simpl; rewrite ?lookup_insert_ne; done.
  - rewrite <-(invoke_world (Client.CallSetException ptr)), invoke_set_exception.
    destruct (objs w !! a) as [p|] eqn:Hp; [|by left].
    destruct (prom_state p) as [l'|] eqn:Hpl; [|by left].
    destruct (decide (l' = l)) as [->|Hne]; [right; exists a, p; eauto 6|].
    left. repeat case_match; simpl; rewrite ?lookup_insert_ne; done.
  - rewrite <-(invoke_world Client.CallDestroy), invoke_destroy.
    destruct (objs w !! a) as [p|] eqn:Hp; [|by left].
    destruct (prom_state p) as [l'|] eqn:Hpl; [|by left].
    destruct (decide (l' = l)) as [->|Hne]; [right; exists a, p; eauto 6|].
    left. repeat case_match; simpl; rewrite ?lookup_insert_ne; done.
  - left. by rewrite future_get_world.
  - left. by rewrite future_is_ready_world.
  - left. by rewrite future_wait_world.
  - by left.
Qed.

(** X16.  Only the owner wakes a reader.  If [get] on a future blocks
    before a call of the client and no longer blocks after it, the call
    was a [set_value], a [set_exception] or the destruction of a promise
    object that points at the future's shared state. *)
Theorem X16_only_owner_wakes_reader c w f :
  (MyFuture.get f w).1 = Blocks →
  (MyFuture.get f (Client.exec c w)).1 ≠ Blocks →
  ∃ l a p,
    MyFuture.state_ f = Some l
    ∧ objs w !! a = Some p ∧ prom_state p = Some l
    ∧ ((∃ val, c = Client.SetValue a val)
       ∨ (∃ ptr, c = Client.SetException a ptr)
       ∨ c = Client.Destroy a).
Proof.
  intros Hb Hnb.
  destruct (future_cases w f) as [Hf|[(l & Hf & Hl)|(l & s & Hf & Hl)]].
  - destruct (future_empty w f Hf) as (Hg & _). by rewrite Hg in Hb.
  - destruct (future_dangling w f l Hf Hl) as (Hg & _). by rewrite Hg in Hb.
  - destruct (record_changed_by_owner c w l s Hl) as [Hl'|(a & p & Hp & Hpl & Hc)].
    + destruct Hnb. rewrite (future_get_live _ f l s) by done.
      by rewrite (future_get_live w f l s) in Hb.
    + by exists l, a, p.
Qed.
End HandoffFacts.

(** * Further scenarios, run on the model *)

Section MoreScenarios.
Lemma X2_poll_scenario :
  let w' := Client.run [Client.Destroy 1; Client.Construct 1] written_world in
  MyFuture.is_ready demo_future w' = (Returns true, w')
  ∧ MyFuture.wait demo_future w' = (Returns tt, w').
Proof.
  apply (X2_is_ready_true_is_permanent demo_future written_world
           [Client.Destroy 1; Client.Construct 1]).
  vm_compute. reflexivity.
Defined.

Lemma X3_issued_future_scenario :
  let w := Client.run [Client.Construct (T:=Z) (E:=string) 1] init_world in
  let w' := (MyPromise.get_future 1 w).2 in
  MyFuture.valid demo_future w' = (Returns true, w')
  ∧ ∃ l s p,
      MyFuture.state_ demo_future = Some l
      ∧ objs w' !! 1 = Some p ∧ prom_state p = Some l
      ∧ heap w' !! l = Some s
      ∧ MyFuture.is_ready demo_future w' = (Returns (SharedState.ready_ s), w').
Proof.
  apply (X3_issued_future_is_valid [Client.Construct 1]
           (Client.run [Client.Construct 1] init_world) 1 demo_future);
    reflexivity.
Defined.

Lemma X4_written_state_scenario :
  ¬ (is_Some (SharedState.value_ (SharedState.mk (E:=string) (Some 42%Z) None true))
     ∧ is_Some (SharedState.exception_ptr_
                  (SharedState.mk (E:=string) (Some 42%Z) None true)))
  ∧ (SharedState.ready_ (SharedState.mk (E:=string) (Some 42%Z) None true) = false
     → SharedState.mk (E:=string) (Some 42%Z) None true = SharedState.init).
Proof.
  apply (X4_value_and_exception_exclusive written_calls 0). reflexivity.
Defined.

Lemma X6_final_result_scenario :
  MyFuture.get demo_future (Client.run [Client.Destroy 1] written_world)
  = (Returns 42%Z, Client.run [Client.Destroy 1] written_world).
Proof.
  apply (X6_get_result_is_final demo_future written_world [Client.Destroy 1]);
    [reflexivity | discriminate | discriminate].
Defined.

Lemma X7_two_promises_scenario :
  0 ≠ 1
  ∧ heap (MyPromise.set_value 2 7%Z two_promises).2 !! 0 = heap two_promises !! 0
  ∧ heap (MyPromise.set_exception 2 None two_promises).2 !! 0 = heap two_promises !! 0
  ∧ heap (MyPromise.dtor 2 two_promises).2 !! 0 = heap two_promises !! 0.
Proof.
  apply (X7_one_writer_per_state [Client.Construct 1; Client.Construct 2]
           two_promises 1 2 (mk_promise (Some 0) false) (mk_promise (Some 1) false));
    try reflexivity. lia.
Defined.

Lemma X8_orphan_scenario :
  let cs := [Client.SetValue 1 5%Z; Client.Destroy 1; Client.Destroy 2] in
  let w' := Client.run cs (MyPromise.move_assign 1 2 issued_and_new).2 in
  heap w' !! 0 = Some SharedState.init
  ∧ MyFuture.get demo_future w' = (Blocks, w').
Proof.
  apply (X8_move_assignment_orphans_state issued_and_new_calls issued_and_new 1 2
           (mk_promise (Some 1) false) (mk_promise (Some 0) true) 0
           SharedState.init demo_future
           [Client.SetValue 1 5%Z; Client.Destroy 1; Client.Destroy 2]);
    try reflexivity. lia.
Defined.

Lemma X9_write_then_destroy_scenario :
  let w1 := (MyPromise.set_value 1 42%Z demo_world).2 in
  let w2 := (MyPromise.dtor 1 w1).2 in
  (MyPromise.dtor 1 w1).1 = Returns tt
  ∧ heap w2 = heap w1
  ∧ objs w2 !! 1 = None
  ∧ MyFuture.get demo_future w2 = (Returns 42%Z, w2).
Proof.
  apply (X9_destroying_after_write_keeps_value demo_calls demo_world 1
           (mk_promise (Some 0) true) demo_future 42%Z); reflexivity.
Defined.

Lemma X10_self_assignment_scenario :
  MyPromise.move_assign 1 1 two_promises = (Returns tt, two_promises)
  ∧ objs (MyPromise.move_assign 1 1 two_promises).2 !! 1
    = Some (mk_promise (Some 0) false).
Proof.
  apply (X10_self_move_assignment_changes_nothing two_promises 1). reflexivity.
Defined.

Lemma X11_write_move_write_scenario :
  let w1 := (MyPromise.set_value 1 1%Z demo_world).2 in
  let w2 := (MyPromise.move_ctor 2 1 w1).2 in
  MyPromise.set_value 2 2%Z w2 = (Throws already_satisfied, w2)
  ∧ MyPromise.set_exception 2 (Some (thrown "late")) w2
    = (Throws already_satisfied, w2)
  ∧ MyFuture.get demo_future w2 = (Returns 1%Z, w2).
Proof.
  apply (X11_second_write_after_move_is_refused demo_calls demo_world 1 2
           (mk_promise (Some 0) true) demo_future 1%Z 2%Z (Some (thrown "late")));
    try reflexivity. lia.
Defined.

Lemma X12_write_first_scenario :
  ∃ f w2,
    MyPromise.get_future 1 (MyPromise.set_value 1 9%Z two_promises).2
    = (Returns f, w2)
    ∧ MyFuture.is_ready f w2 = (Returns true, w2)
    ∧ MyFuture.get f w2 = (Returns 9%Z, w2).
Proof.
  apply (X12_get_future_after_write [Client.Construct 1; Client.Construct 2]
           two_promises 1 (mk_promise (Some 0) false) 9%Z); reflexivity.
Defined.

Lemma X13_producer_scenario :
  ∃ w',
    produce_data 1 [] demo_world = (Returns tt, [] ++ ["Producer: Working..."], w')
    ∧ objs w' !! 1 = None
    ∧ MyFuture.get demo_future w' = (Returns 42%Z, w').
Proof.
  apply (X13_produce_data_delivers_42 demo_calls demo_world 1
           (mk_promise (Some 0) true) 0 SharedState.init demo_future []);
    reflexivity.
Defined.

Lemma X15_handoff_scenario :
  let w1 := (MyPromise.ctor 1 (@init_world Z string)).2 in
  ∃ f w2 w4,
    MyPromise.get_future 1 w1 = (Returns f, w2)
    ∧ MyFuture.get f (MyPromise.move_ctor 2 1 w2).2
      = (Blocks, (MyPromise.move_ctor 2 1 w2).2)
    ∧ MyPromise.set_value 2 42%Z (MyPromise.move_ctor 2 1 w2).2 = (Returns tt, w4)
    ∧ MyFuture.get f w4 = (Returns 42%Z, w4)
    ∧ let w5 := Client.run [Client.Destroy 2; Client.Destroy 1] w4 in
      heap w5 = heap w4
      ∧ objs w5 !! 1 = None ∧ objs w5 !! 2 = None
      ∧ MyFuture.get f w5 = (Returns 42%Z, w5).
Proof. apply (X15_handoff_through_moved_promise init_world 1 2 42%Z). lia. Defined.

Lemma X16_wake_up_scenario :
  let c : Client.call Z string := Client.SetValue 1 42%Z in
  ∃ l a p,
    MyFuture.state_ demo_future = Some l
    ∧ objs demo_world !! a = Some p ∧ prom_state p = Some l
    ∧ ((∃ val, c = Client.SetValue a val)
       ∨ (∃ ptr, c = Client.SetException a ptr)
       ∨ c = Client.Destroy a).
Proof.
  apply (X16_only_owner_wakes_reader (Client.SetValue 1 42%Z) demo_world demo_future).
  - reflexivity.
  - vm_compute. discriminate.
Defined.
End MoreScenarios.


(** * Suspended callers and the abandoned promise *)

Section ConcurrentFacts.
Context {T E : Type}.
Implicit Types (cw : Concurrent.cworld T E) (s : SharedState.t T E)
  (f : MyFuture.t) (p : promise_obj).
Import Concurrent.







Lemma state_set_value_pending pick l cw s val :
  heap (base cw) !! l = Some s → SharedState.ready_ s = false →
  state_set_value pick l val cw
  = notify_one pick l
      {| base := {| heap := <[l := (SharedState.set_value val s).2]> (heap (base cw));
                    objs := objs (base cw) |};
         cv_ := cv_ cw; resumed := resumed cw |}.
Proof.
  intros Hl Hr. unfold state_set_value, cbind, clift.
  rewrite (call_state_live (base cw) l s) by done.
  unfold SharedState.set_value at 1. by rewrite Hr.
Qed.





(** ** The layer adds nothing to what calls do to the world *)










(** ** Nobody is added to, or resumed from, a ready state *)





(** ** The destructor and the suspended callers *)






End ConcurrentFacts.


(** * Two readers and one notification *)

Section AbandonmentScenarios.
Import Concurrent.


End AbandonmentScenarios.
